(** * fint_backend: token service, auth middleware, coupon and
    advertisement lifecycle

    A shallow embedding of
    - [src/models/user.model.js]                (token issuance),
    - [src/middlewares/auth.admin.middleware.js] and
      [src/middlewares/auth.middleware.js]      (request gates),
    - [controllers/.../fintCoupon.controller.js] (coupon lifecycle),
    - the advertisement controller              (view analytics),
    followed by the properties of the written specification that these
    definitions decide.

    Conventions.  A JavaScript object is a finite map from field names to
    values ([gmap string value]); reading a field that is not there is
    [None] (JavaScript's [undefined]).  A MongoDB collection is the list of
    its documents in insertion order.  Code that throws returns a [result];
    the middleware, which also writes to the console, runs in a small
    writer-and-exception monad.  The clock is an explicit argument. *)

From Stdlib Require Import ZArith QArith String Ascii List Lia.
From Stdlib Require Import Sorted OrderedTypeEx.
From stdpp Require Import gmap strings list fin_maps.

Open Scope string_scope.
Open Scope Z_scope.

(** ** Values *)

(** The values a request body, a token payload or a stored document holds.
    Numbers are JavaScript numbers taken as exact rationals; a date is its
    time value, in milliseconds since the epoch. *)
Inductive value :=
  | VNull
  | VBool (b : bool)
  | VNum (q : Q)
  | VStr (s : string)
  | VDate (t : Z).

#[global] Instance Q_eq_dec : EqDecision Q.
Proof. solve_decision. Defined.

#[global] Instance value_eq_dec : EqDecision value.
Proof. solve_decision. Defined.

Inductive result (E A : Type) :=
  | Ok (a : A)
  | Err (e : E).
Arguments Ok {E A} a.
Arguments Err {E A} e.

(** [x || y] on values that may be missing or empty: the first truthy
    string, else the second operand. *)
Definition truthy_string (s : option string) : option string :=
  match s with
  | Some EmptyString => None
  | other => other
  end.

(** ** Validation messages

    Joi reports a violation as a message built from an error code and the
    label of the key; the pair is kept instead of the rendered text. *)
Inductive joi_code :=
  | any_required
  | any_unknown            (* object.unknown: key is not allowed *)
  | string_base
  | string_empty
  | string_uri
  | string_alphanum
  | string_min (limit : nat)
  | number_base
  | number_unsafe
  | number_min (limit : Q)
  | number_max (limit : Q)
  | date_base.

Record joi_detail := { path : string; code : joi_code }.

(** Modelled from the spec: [utils/ApiError.js] is not part of the
    sources; an error carries a status code, a message and a list of
    details (the envelope [{ statusCode, message, errors }]). *)
Inductive detail :=
  | Violation (d : joi_detail)
  | Text (s : string).

Record ApiError := mkApiError {
  statusCode : Z;
  message : string;
  errors : list detail
}.

(** ** JSON Web Tokens

    [jsonwebtoken] is an external primitive.  Signing is taken as ideal: a
    token is the payload together with the key that signed it, and two
    tokens are the same string exactly when both agree.  Any other string
    is [Malformed]. *)
Inductive token :=
  | Signed (payload : gmap string value) (key : string)
  | Malformed (raw : string).

#[global] Instance token_eq_dec : EqDecision token.
Proof. solve_decision. Defined.

Inductive jwt_error :=
  | JsonWebTokenError (msg : string)
  | TokenExpiredError.

Definition jwt_message (e : jwt_error) : string :=
  match e with
  | JsonWebTokenError msg => msg
  | TokenExpiredError => "jwt expired"
  end.

(** [jwt.sign(payload, secret, { expiresIn })] at clock [now] (seconds):
    refuses a missing or empty secret, stamps [iat] and [exp].  The
    payloads signed by this program carry neither stamp beforehand. *)
Definition jwt_sign (payload : gmap string value) (secret : option string)
    (expiresIn : Z) (now : Z) : result jwt_error token :=
  match truthy_string secret with
  | None => Err (JsonWebTokenError "secretOrPrivateKey must have a value")
  | Some k =>
      Ok (Signed (<["exp" := VNum (inject_Z (now + expiresIn))]>
                    (<["iat" := VNum (inject_Z now)]> payload)) k)
  end.

(** [jwt.verify(token, secret)] at clock [now]: parse, then the secret,
    then the signature, then the expiry ([now >= exp] is expired). *)
Definition jwt_verify (t : token) (secret : option string) (now : Z)
    : result jwt_error (gmap string value) :=
  match t with
  | Malformed _ => Err (JsonWebTokenError "jwt malformed")
  | Signed payload key =>
      match truthy_string secret with
      | None => Err (JsonWebTokenError "secret or public key must be provided")
      | Some s =>
          if String.eqb key s then
            match payload !! "exp" with
            | None => Ok payload
            | Some (VNum e) =>
                if Qle_bool e (inject_Z now) then Err TokenExpiredError
                else Ok payload
            | Some _ => Err (JsonWebTokenError "invalid exp value")
            end
          else Err (JsonWebTokenError "invalid signature")
      end
  end.

(** ** Principals and the environment *)

(** A stored principal.  The fields the token service and the middleware
    read are named; the remaining schema paths of [userSchema] (name,
    avatar, phoneNumber, bloodGroup, beADonor, pinCode, firebaseTokens,
    upiId) travel in [profile].  [refreshToken = None] is [null] or, after
    a projection, the absent field.  The Admin model is not part of the
    sources; its documents are taken to have the same shape: an
    identifier and one stored refresh token. *)
Record Principal := mkPrincipal {
  _id : string;
  email : option string;
  refreshToken : option token;
  profile : gmap string value
}.

(** [process.env]; the two expiry spans are held already parsed, in
    seconds ([None]: unset or empty). *)
Record Env := mkEnv {
  ACCESS_TOKEN_SECRET : option string;
  REFRESH_TOKEN_SECRET : option string;
  ACCESS_TOKEN_EXPIRY : option Z;
  REFRESH_TOKEN_EXPIRY : option Z
}.

Definition one_day : Z := 86400.
Definition thirty_days : Z := 2592000.

(** A field that is [undefined] is left out by the JSON encoding. *)
Definition put_string (k : string) (v : option string)
    (o : gmap string value) : gmap string value :=
  match v with
  | Some s => <[k := VStr s]> o
  | None => o
  end.

(** [userSchema.methods.generateAccessToken]. *)
Definition generateAccessToken (env : Env) (this : Principal) (now : Z)
    : result jwt_error token :=
  jwt_sign (<["id" := VStr (_id this)]> (put_string "email" (email this) ∅))
           (ACCESS_TOKEN_SECRET env)
           (default one_day (ACCESS_TOKEN_EXPIRY env))
           now.

(** [userSchema.methods.generateRefreshToken]. *)
Definition generateRefreshToken (env : Env) (this : Principal) (now : Z)
    : result jwt_error token :=
  jwt_sign (<["id" := VStr (_id this)]> ∅)
           (REFRESH_TOKEN_SECRET env)
           (default thirty_days (REFRESH_TOKEN_EXPIRY env))
           now.

(** ** The middleware monad

    A handler writes lines to the console and either returns or throws.
    [asyncHandler] forwards whatever is thrown to the error translator. *)
Inductive log :=
  | LogSecret (secret : option string)
  | LogToken (t : option token)
  | LogDecoded (payload : gmap string value)
  | LogPrincipal (p : option Principal)
  | LogError (msg : string).

Inductive exn :=
  | ExApi (e : ApiError)
  | ExJwt (e : jwt_error)
  | ExCast (msg : string).

Definition exn_message (e : exn) : string :=
  match e with
  | ExApi a => message a
  | ExJwt j => jwt_message j
  | ExCast msg => msg
  end.

Definition M (A : Type) : Type := (result exn A * list log)%type.

#[global] Instance M_ret : MRet M := fun A a => (Ok a, []).

#[global] Instance M_bind : MBind M := fun A B k m =>
  match m with
  | (Ok a, out) => let '(r, out') := k a in (r, (out ++ out')%list)
  | (Err e, out) => (Err e, out)
  end.

Definition throw {A} (e : exn) : M A := (Err e, []).

(** [console.log] and [console.error]. *)
Definition console (l : log) : M unit := (Ok tt, [l]).

(** [try { body } catch (error) { handler(error) }]. *)
Definition try_catch {A} (body : M A) (handler : exn → M A) : M A :=
  match body with
  | (Ok a, out) => (Ok a, out)
  | (Err e, out) => let '(r, out') := handler e in (r, (out ++ out')%list)
  end.

Definition lift_jwt {A} (r : result jwt_error A) : M A :=
  match r with
  | Ok a => mret a
  | Err e => throw (ExJwt e)
  end.

Definition throw_api {A} (status : Z) (msg : string) : M A :=
  throw (ExApi (mkApiError status msg [])).

(** ** Requests *)

(** The [Authorization] header: [Bearer] followed by what
    [split(" ")[1]] yields (nothing when the rest is empty), or any other
    text. *)
Inductive AuthHeader :=
  | Bearer (rest : option token)
  | OtherScheme (raw : string).

Record Request := mkRequest {
  Authorization : option AuthHeader;
  cookies_refreshToken : option token;
  x_refresh_token : option token
}.

(** [authHeader?.startsWith("Bearer ") ? authHeader.split(" ")[1] : null] *)
Definition bearer_token (req : Request) : option token :=
  match Authorization req with
  | Some (Bearer rest) => rest
  | _ => None
  end.

(** [req.cookies?.refreshToken || req.header("x-refresh-token")] *)
Definition presented_refresh_token (req : Request) : option token :=
  match cookies_refreshToken req with
  | Some t => Some t
  | None => x_refresh_token req
  end.

(** What the identifier cast of the document store accepts. *)
Class Mongoose := { ObjectId_isValid : string → bool }.

Section Middleware.
Context `{Mongoose}.

(** [Model.findById(key)]: an [undefined] or [null] key looks for
    [_id: null] and finds nothing; a string must cast to an identifier;
    anything else fails the cast. *)
Definition findById (coll : list Principal) (key : option value)
    : M (option Principal) :=
  match key with
  | None | Some VNull => mret None
  | Some (VStr s) =>
      if ObjectId_isValid s
      then mret (List.find (fun p => String.eqb (_id p) s) coll)
      else throw (ExCast "Cast to ObjectId failed")
  | Some _ => throw (ExCast "Cast to ObjectId failed")
  end.

(** [.select("-refreshToken")] *)
Definition select_without_refreshToken (p : Principal) : Principal :=
  {| _id := _id p; email := email p; refreshToken := None;
     profile := profile p |}.

(** The body shared by the two access-token gates, which differ in the
    collection read and in the text of the not-found error. *)
Definition verifyJWT_with (not_found : string) (env : Env)
    (coll : list Principal) (now : Z) (req : Request) : M Principal :=
  match bearer_token req with
  | None => throw_api 401 "Access token missing"
  | Some token =>
      try_catch
        (console (LogSecret (ACCESS_TOKEN_SECRET env));;
         decoded ← lift_jwt (jwt_verify token (ACCESS_TOKEN_SECRET env) now);
         console (LogDecoded decoded);;
         found ← findById coll (decoded !! "_id");
         let principal := select_without_refreshToken <$> found in
         console (LogPrincipal principal);;
         match principal with
         | None => throw_api 404 not_found
         | Some p => mret p
         end)
        (fun error =>
           console (LogError (exn_message error));;
           throw_api 401 "Invalid or expired access token")
  end.

(** [adminverifyJWT]: on success the result is attached as [req.admin]. *)
Definition adminverifyJWT (env : Env) (Admin : list Principal) (now : Z)
    (req : Request) : M Principal :=
  verifyJWT_with "Admin not found" env Admin now req.

(** [userverifyJWT]: on success the result is attached as [req.user]. *)
Definition userverifyJWT (env : Env) (User : list Principal) (now : Z)
    (req : Request) : M Principal :=
  verifyJWT_with "User not found" env User now req.

(** The body shared by the two refresh-token gates. *)
Definition verifyRefreshToken_with (env : Env) (coll : list Principal)
    (now : Z) (req : Request) : M Principal :=
  let presented := presented_refresh_token req in
  console (LogToken presented);;
  match presented with
  | None => throw_api 401 "Refresh token missing"
  | Some token =>
      try_catch
        (decoded ← lift_jwt (jwt_verify token (REFRESH_TOKEN_SECRET env) now);
         console (LogDecoded decoded);;
         found ← findById coll (decoded !! "_id");
         console (LogPrincipal found);;
         match found with
         | None => throw_api 403 "Invalid refresh token"
         | Some p =>
             if bool_decide (refreshToken p = Some token)
             then mret p
             else throw_api 403 "Invalid refresh token"
         end)
        (fun err => throw_api 401 "Refresh token expired or invalid")
  end.

(** [verifyRefreshToken] of the admin middleware. *)
Definition verifyAdminRefreshToken (env : Env) (Admin : list Principal)
    (now : Z) (req : Request) : M Principal :=
  verifyRefreshToken_with env Admin now req.

(** [verifyRefreshToken] of the user middleware. *)
Definition verifyRefreshToken (env : Env) (User : list Principal)
    (now : Z) (req : Request) : M Principal :=
  verifyRefreshToken_with env User now req.

End Middleware.

(** The response of a gate: the principal handed on, or the error that
    reaches the translator. *)
Definition thrown {A} (m : M A) : option ApiError :=
  match fst m with
  | Err (ExApi e) => Some e
  | _ => None
  end.

Definition passed {A} (m : M A) : option A :=
  match fst m with
  | Ok a => Some a
  | Err _ => None
  end.


(** An identifier cast used to run the definitions: twenty-four
    hexadecimal digits. *)
Definition is_hex (a : ascii) : bool :=
  let n := nat_of_ascii a in
  ((48 <=? n) && (n <=? 57) || (65 <=? n) && (n <=? 70)
   || (97 <=? n) && (n <=? 102))%nat.

Definition hex24 (s : string) : bool :=
  (String.length s =? 24)%nat && forallb is_hex (list_ascii_of_string s).

Definition hex_ids : Mongoose := {| ObjectId_isValid := hex24 |}.

(** ** Joi

    The part of Joi the two coupon schemas use, with the default
    [convert: true].  What Joi delegates to regular expressions and to the
    JavaScript runtime (the URI grammar, reading a number or a date out of
    a string) is a parameter. *)
Class JoiLib := {
  is_uri : string → bool;
  parse_number : string → option Q;
  parse_date : string → option Z
}.

Inductive joi_base := JString | JNumber | JDate.

Inductive joi_rule :=
  | r_trim
  | r_uri
  | r_alphanum
  | r_min_length (limit : nat)
  | r_min (limit : Q)
  | r_max (limit : Q).

Record joi_schema := mkSchema {
  base : joi_base;
  presence_required : bool;
  valids : list value;
  rules : list joi_rule
}.

Definition Joi_string : joi_schema := mkSchema JString false [] [].
Definition Joi_number : joi_schema := mkSchema JNumber false [] [].
Definition Joi_date : joi_schema := mkSchema JDate false [] [].

Definition add_rule (r : joi_rule) (s : joi_schema) : joi_schema :=
  mkSchema (base s) (presence_required s) (valids s) (rules s ++ [r])%list.

Definition trim := add_rule r_trim.
Definition uri := add_rule r_uri.
Definition alphanum := add_rule r_alphanum.
Definition min_length (n : nat) := add_rule (r_min_length n).
Definition min (q : Q) := add_rule (r_min q).
Definition max (q : Q) := add_rule (r_max q).

Definition required (s : joi_schema) : joi_schema :=
  mkSchema (base s) true (valids s) (rules s).
Definition optional (s : joi_schema) : joi_schema :=
  mkSchema (base s) false (valids s) (rules s).
Definition allow (vs : list value) (s : joi_schema) : joi_schema :=
  mkSchema (base s) (presence_required s) (valids s ++ vs)%list (rules s).

(** Method chaining, left to right. *)
Notation "s |> f" := (f s) (at level 45, left associativity, only parsing).

Record object_schema := mkObject {
  keys : list (string * joi_schema);
  allow_unknown : bool
}.

(** [String.prototype.trim] on the white space of ASCII. *)
Definition is_space (a : ascii) : bool :=
  let n := nat_of_ascii a in
  ((9 <=? n) && (n <=? 13) || (n =? 32))%nat.

Fixpoint trim_start (s : string) : string :=
  match s with
  | EmptyString => EmptyString
  | String a rest => if is_space a then trim_start rest else s
  end.

Definition string_rev (s : string) : string :=
  string_of_list_ascii (rev (list_ascii_of_string s)).

Definition string_trim (s : string) : string :=
  string_rev (trim_start (string_rev (trim_start s))).

Definition is_alnum (a : ascii) : bool :=
  let n := nat_of_ascii a in
  ((48 <=? n) && (n <=? 57) || (65 <=? n) && (n <=? 90)
   || (97 <=? n) && (n <=? 122))%nat.

Definition MAX_SAFE_INTEGER : Q := inject_Z 9007199254740991.
Definition MAX_TIME_VALUE : Z := 8640000000000000.

(** [q < r] on rationals, as a boolean. *)
Definition Qlt_bool (q r : Q) : bool := negb (Qle_bool r q).

(** [new Date(n)]: the number, if it is in range, cut to an integer. *)
Definition date_of_number (q : Q) : option Z :=
  if Qle_bool (- inject_Z MAX_TIME_VALUE) q
     && Qle_bool q (inject_Z MAX_TIME_VALUE)
  then Some (Z.quot (Qnum q) (Zpos (Qden q)))
  else None.

Section JoiValidation.
Context `{JoiLib}.

(** Type coercion, applied to a value that is present. *)
Definition coerce (s : joi_schema) (v : value) : value :=
  match base s, v with
  | JString, VStr x =>
      if existsb (fun r => match r with r_trim => true | _ => false end)
                 (rules s)
      then VStr (string_trim x) else v
  | JNumber, VStr x =>
      match parse_number x with Some q => VNum q | None => v end
  | JDate, VNum q =>
      match date_of_number q with Some t => VDate t | None => v end
  | JDate, VStr x =>
      match parse_date x with Some t => VDate t | None => v end
  | _, _ => v
  end.

(** The base type test; a failure here ends the validation of the key. *)
Definition check_base (s : joi_schema) (v : value) : option joi_code :=
  match base s, v with
  | JString, VStr x =>
      if bool_decide (x = EmptyString)
         && negb (existsb (fun r => match r with
                                    | r_min_length O => true
                                    | _ => false
                                    end) (rules s))
      then Some string_empty else None
  | JString, _ => Some string_base
  | JNumber, VNum q =>
      if Qlt_bool MAX_SAFE_INTEGER q || Qlt_bool q (- MAX_SAFE_INTEGER)
      then Some number_unsafe else None
  | JNumber, _ => Some number_base
  | JDate, VDate _ => None
  | JDate, _ => Some date_base
  end.

(** One rule against a value of the right base type.  With [convert] on,
    [trim] is done by the coercion and is no test. *)
Definition check_rule (r : joi_rule) (v : value) : option joi_code :=
  match r, v with
  | r_uri, VStr x => if is_uri x then None else Some string_uri
  | r_alphanum, VStr x =>
      if negb (bool_decide (x = EmptyString))
         && forallb is_alnum (list_ascii_of_string x)
      then None else Some string_alphanum
  | r_min_length n, VStr x =>
      if (n <=? String.length x)%nat then None else Some (string_min n)
  | r_min q, VNum x => if Qlt_bool x q then Some (number_min q) else None
  | r_max q, VNum x => if Qlt_bool q x then Some (number_max q) else None
  | _, _ => None
  end.

(** Validation of one key: the converted value, if any, and every
    violation found.  Order: coercion, presence, allowed values, base
    type, then all rules. *)
Definition validate_value (s : joi_schema) (v : option value)
    : option value * list joi_code :=
  match v with
  | None => (None, if presence_required s then [any_required] else [])
  | Some v0 =>
      let v1 := coerce s v0 in
      if bool_decide (v1 ∈ valids s) then (Some v1, [])
      else match check_base s v1 with
           | Some c => (Some v1, [c])
           | None => (Some v1, omap (fun r => check_rule r v1) (rules s))
           end
  end.

(** The violations of the declared keys, in the order of declaration. *)
Definition key_errors (ks : list (string * joi_schema))
    (obj : gmap string value) : list joi_detail :=
  '(k, s) ← ks;
  (fun c => {| path := k; code := c |}) <$> (validate_value s (obj !! k)).2.

(** The violations for keys the schema does not declare. *)
Definition unknown_errors (sch : object_schema) (obj : gmap string value)
    : list joi_detail :=
  if allow_unknown sch then []
  else (fun k => {| path := k; code := any_unknown |})
         <$> List.filter (fun k => negb (bool_decide (k ∈ (keys sch).*1)))
                         (map_to_list obj).*1.

(** The object with each declared key replaced by its converted value. *)
Definition convert_step (obj acc : gmap string value)
    (ks : string * joi_schema) : gmap string value :=
  match (validate_value ks.2 (obj !! ks.1)).1 with
  | Some v => <[ks.1 := v]> acc
  | None => acc
  end.

Definition converted (ks : list (string * joi_schema))
    (obj : gmap string value) : gmap string value :=
  foldl (convert_step obj) obj ks.

(** [schema.validate(obj, { abortEarly })]: [Err] is the [error.details],
    [Ok] the value.  Stopping early reports the first violation only. *)
Definition validate (sch : object_schema) (obj : gmap string value)
    (abortEarly : bool) : result (list joi_detail) (gmap string value) :=
  match (key_errors (keys sch) obj ++ unknown_errors sch obj)%list with
  | [] => Ok (converted (keys sch) obj)
  | d :: ds => Err (if abortEarly then [d] else d :: ds)
  end.

(** [couponSchema] *)
Definition couponSchema : object_schema :=
  mkObject
    [ ("couponTitle", Joi_string |> trim |> required);
      ("logo", Joi_string |> uri |> optional |> allow [VNull; VStr ""]);
      ("offerTitle", Joi_string |> trim |> required);
      ("offerDescription", Joi_string |> trim |> required);
      ("termsAndConditions", Joi_string |> trim |> required);
      ("expiryDate", Joi_date |> required);
      ("offerDetails", Joi_string |> optional |> allow [VStr ""]);
      ("aboutCompany", Joi_string |> optional |> allow [VStr ""]);
      ("claimPercentage", Joi_number |> min 0 |> max 100 |> optional);
      ("createdBy", Joi_string |> optional) ]
    true.

(** [editCouponSchema] *)
Definition editCouponSchema : object_schema :=
  mkObject
    [ ("couponTitle", Joi_string |> min_length 3 |> optional);
      ("couponCode", Joi_string |> alphanum |> min_length 3 |> optional);
      ("discountType", Joi_string |> optional);
      ("discountValue", Joi_number |> min 0 |> optional);
      ("expiryDate", Joi_date |> optional);
      ("logo", Joi_string |> optional |> allow [VNull; VStr ""]);
      ("offerTitle", Joi_string |> optional);
      ("offerDescription", Joi_string |> optional);
      ("termsAndConditions", Joi_string |> optional);
      ("offerDetails", Joi_string |> optional);
      ("aboutCompany", Joi_string |> optional) ]
    false.

End JoiValidation.

(** ** The coupon collection *)

(** Modelled from the spec: [utils/ApiResponse.js] is not part of the
    sources; a response is the envelope [{ statusCode, data, message }],
    here [status], [data] and [note]. *)
Record ApiResponse (A : Type) := mkResponse {
  status : Z;
  data : A;
  note : string
}.
Arguments mkResponse {A} status data note.
Arguments status {A} _.
Arguments data {A} _.
Arguments note {A} _.

(** What a controller can throw at [asyncHandler]. *)
Inductive failure :=
  | Api (e : ApiError)
  | TypeError (msg : string)
  | CastError (msg : string)
  | StoreError (msg : string).

(** Modelled from the spec: the Coupon model
    ([models/coupon/coupon.model.js] is not part of the sources).  Its
    paths are the fields of the data model under the names the controller
    uses: title, code, discount descriptor, expiry timestamp, one creator
    reference, status, view counter, claim percentage and the descriptive
    fields.  A new record has status [active]. *)
Definition Coupon_paths : list string :=
  [ "couponTitle"; "couponCode"; "discountType"; "discountValue";
    "expiryDate"; "createdBy"; "status"; "viewCount"; "claimPercentage";
    "offerTitle"; "offerDescription"; "termsAndConditions"; "logo";
    "offerDetails"; "aboutCompany" ].

Definition Coupon_defaults : gmap string value :=
  <["status" := VStr "active"]> (<["viewCount" := VNum 0]> ∅).

(** The schema keeps the paths it declares and drops the rest. *)
Definition strict (obj : gmap string value) : gmap string value :=
  filter (fun kv => kv.1 ∈ Coupon_paths) obj.

(** [new Coupon(value)] *)
Definition Coupon_new (obj : gmap string value) : gmap string value :=
  strict obj ∪ Coupon_defaults.

(** [doc.save()] of a new document: the store assigns the identifier and
    the creation time. *)
Definition save_new (fresh : string) (now : Z) (doc : gmap string value)
    : gmap string value :=
  <["_id" := VStr fresh]> (<["createdAt" := VDate now]> doc).

Definition has_string (field : string) (s : string) (d : gmap string value)
    : bool :=
  match d !! field with
  | Some (VStr x) => String.eqb x s
  | _ => false
  end.

(** [{ field: { $lte: now } }] against a date. *)
Definition date_lte (field : string) (now : Z) (d : gmap string value)
    : bool :=
  match d !! field with
  | Some (VDate t) => t <=? now
  | _ => false
  end.

Definition date_field (field : string) (d : gmap string value) : option Z :=
  match d !! field with
  | Some (VDate t) => Some t
  | _ => None
  end.

(** [Model.updateMany(filter, { $set })] *)
Definition updateMany (matches : gmap string value → bool)
    (set : gmap string value → gmap string value)
    (coll : list (gmap string value)) : list (gmap string value) :=
  (fun d => if matches d then set d else d) <$> coll.

(** The update of the one document a [findById] has returned, and of the
    one [findByIdAndUpdate] addresses: the first with that identifier. *)
Fixpoint update_by_id (id : string)
    (set : gmap string value → gmap string value)
    (coll : list (gmap string value)) : list (gmap string value) :=
  match coll with
  | [] => []
  | d :: rest =>
      if has_string "_id" id d then set d :: rest
      else d :: update_by_id id set rest
  end.

(** [.sort({ field: -1 })]: descending, a missing value last, ties in
    the order of the collection. *)
Definition key_ge (a b : option Z) : bool :=
  match a, b with
  | _, None => true
  | None, Some _ => false
  | Some x, Some y => y <=? x
  end.

Fixpoint insert_desc (key : gmap string value → option Z)
    (x : gmap string value) (l : list (gmap string value))
    : list (gmap string value) :=
  match l with
  | [] => [x]
  | y :: rest =>
      if key_ge (key x) (key y) then x :: l
      else y :: insert_desc key x rest
  end.

Definition sort_desc (field : string) (l : list (gmap string value))
    : list (gmap string value) :=
  foldr (insert_desc (date_field field)) [] l.

(** The auto-expiry sweep:
    [updateMany({ expiryDate: { $lte: now }, status: "active" },
                { $set: { status: "expired" } })]. *)
Definition auto_expire (now : Z) (coll : list (gmap string value))
    : list (gmap string value) :=
  updateMany (fun d => date_lte "expiryDate" now d
                       && has_string "status" "active" d)
             (fun d => <["status" := VStr "expired"]> d)
             coll.

(** The shape the listings send: [{ id: coupon._id, title:
    coupon.couponTitle, logo: coupon.logo, ... }]. *)
Definition copy_field (from to : string) (d acc : gmap string value)
    : gmap string value :=
  match d !! from with
  | Some v => <[to := v]> acc
  | None => acc
  end.

Definition coupon_view (coupon : gmap string value) : gmap string value :=
  foldr (fun '(to, from) acc => copy_field from to coupon acc) ∅
    [ ("id", "_id"); ("title", "couponTitle"); ("logo", "logo");
      ("offerTitle", "offerTitle"); ("offerDescription", "offerDescription");
      ("expiryDate", "expiryDate"); ("status", "status");
      ("claimPercentage", "claimPercentage"); ("viewCount", "viewCount");
      ("createdAt", "createdAt") ].

(** [aggregate([{ $group: { _id: "$status", count: { $sum: 1 } } }])]
    folded into [{ active: X, expired: Y, ... }]. *)
Definition status_key (d : gmap string value) : string :=
  match d !! "status" with
  | Some (VStr s) => s
  | _ => "null"
  end.

Definition statusSummary_of (coll : list (gmap string value))
    : gmap string nat :=
  foldl (fun acc d =>
           <[status_key d := S (default O (acc !! status_key d))]> acc)
        ∅ coll.

Record File := mkFile {
  file_path : option string;
  file_location : option string
}.

(** A request as the coupon controller reads it. *)
Record CouponRequest := mkCouponRequest {
  body : gmap string value;
  file : option File;
  venture : option string;      (* req.venture?._id *)
  params_id : string            (* req.params.id *)
}.

(** [req.file.path || req.file.location]: the path if it is truthy, else
    the location, whatever it is. *)
Definition uploaded (f : File) : option value :=
  match truthy_string (file_path f) with
  | Some p => Some (VStr p)
  | None => VStr <$> file_location f
  end.

(** [{ ...obj, key: v }], where [v] may be [undefined]. *)
Definition assign (k : string) (v : option value) (obj : gmap string value)
    : gmap string value :=
  match v with
  | Some x => <[k := x]> obj
  | None => delete k obj
  end.

Record CouponList := mkCouponList {
  count : nat;
  coupons : list (gmap string value)
}.

Record CouponOverview := mkCouponOverview {
  couponCount : nat;
  statusSummary : gmap string nat;
  all_coupons : list (gmap string value)
}.

(** [{ ...req.body, logo: logoUrl, createdBy: ventureId.toString() }] *)
Definition formData_of (req : CouponRequest) (logoUrl : option value)
    (ventureId : string) : gmap string value :=
  assign "createdBy" (Some (VStr ventureId))
         (assign "logo" logoUrl (body req)).

(** [req.file ? req.file.path || req.file.location : null] *)
Definition logoUrl_of (req : CouponRequest) : option value :=
  match file req with
  | Some f => uploaded f
  | None => Some VNull
  end.

Section CouponController.
Context `{JoiLib} `{Mongoose}.

#[local] Abbreviation store := (list (gmap string value)).

(** [Coupon.findById(id)] *)
Definition Coupon_findById (id : string) (Coupon : store)
    : result failure (option (gmap string value)) :=
  if ObjectId_isValid id
  then Ok (List.find (has_string "_id" id) Coupon)
  else Err (CastError "Cast to ObjectId failed").

(** [createCoupon] *)
Definition createCoupon (now : Z) (fresh : string) (req : CouponRequest)
    (Coupon : store) : result failure (ApiResponse (gmap string value)) * store :=
  let logoUrl := logoUrl_of req in
  match venture req with
  | None => (Err (TypeError "Cannot read properties of undefined"), Coupon)
  | Some ventureId =>
      let formData := formData_of req logoUrl ventureId in
      match validate couponSchema formData false with
      | Err details =>
          (Err (Api (mkApiError 400 "Validation error"
                                (Violation <$> details))), Coupon)
      | Ok value =>
          let savedCoupon := save_new fresh now (Coupon_new value) in
          (Ok (mkResponse 201 savedCoupon "Coupon created successfully"),
           (Coupon ++ [savedCoupon])%list)
      end
  end.

(** [editCoupon] *)
Definition editCoupon (req : CouponRequest) (Coupon : store)
    : result failure (ApiResponse (option (gmap string value))) * store :=
  let id := params_id req in
  match Coupon_findById id Coupon with
  | Err e => (Err e, Coupon)
  | Ok None => (Err (Api (mkApiError 404 "Coupon not found" [])), Coupon)
  | Ok (Some existingCoupon) =>
      let logoUrl := match file req with
                     | Some f => uploaded f
                     | None => existingCoupon !! "logo"
                     end in
      let updatedData := assign "logo" logoUrl (body req) in
      match validate editCouponSchema updatedData false with
      | Err details =>
          (Err (Api (mkApiError 400 "Validation failed"
                                (Violation <$> details))), Coupon)
      | Ok value =>
          let Coupon' :=
            update_by_id id (fun d => strict value ∪ d) Coupon in
          (Ok (mkResponse 200 (List.find (has_string "_id" id) Coupon')
                          "Coupon updated successfully"),
           Coupon')
      end
  end.

(** [displayCoupons]: sweep, then everything, newest first, with the
    count per status. *)
Definition displayCoupons (now : Z) (Coupon : store)
    : result failure (ApiResponse CouponOverview) * store :=
  let Coupon' := auto_expire now Coupon in
  let couponsRaw := sort_desc "createdAt" Coupon' in
  let coupons := coupon_view <$> couponsRaw in
  (Ok (mkResponse 200
         (mkCouponOverview (length coupons) (statusSummary_of Coupon') coupons)
         "Coupons fetched successfully."),
   Coupon').

(** The three listings by status, which share their text but for the
    status asked for. *)
Definition display_by_status (wanted : string) (msg : string)
    (Coupon : store) : result failure (ApiResponse CouponList) * store :=
  let found := sort_desc "createdAt"
                 (List.filter (has_string "status" wanted) Coupon) in
  let coupons := coupon_view <$> found in
  (Ok (mkResponse 200 (mkCouponList (length coupons) coupons) msg), Coupon).

(** [displayDeletedCoupons] *)
Definition displayDeletedCoupons :=
  display_by_status "deleted" "Deleted coupons fetched successfully.".

(** [displayActiveCoupons] *)
Definition displayActiveCoupons :=
  display_by_status "active" "Active coupons fetched successfully.".

(** [displayExpiredCoupons] *)
Definition displayExpiredCoupons :=
  display_by_status "expired" "Expired coupons fetched successfully.".


(** The body shared by [rejectCouponById] and [deleteCouponById]. *)
Definition set_status_by_id (new_status : string) (msg : string)
    (req : CouponRequest) (Coupon : store)
    : result failure (ApiResponse (gmap string value)) * store :=
  let id := params_id req in
  match Coupon_findById id Coupon with
  | Err e => (Err e, Coupon)
  | Ok None => (Err (Api (mkApiError 404 "Coupon not found" [])), Coupon)
  | Ok (Some coupon) =>
      let coupon' := <["status" := VStr new_status]> coupon in
      (Ok (mkResponse 200 coupon' msg),
       update_by_id id (fun _ => coupon') Coupon)
  end.

(** [rejectCouponById] *)
Definition rejectCouponById :=
  set_status_by_id "rejected" "Coupon status updated to 'rejected'".

(** [deleteCouponById] *)
Definition deleteCouponById :=
  set_status_by_id "deleted" "Coupon status updated to 'deleted'".

(** One request served by the coupon controller, as a change of the
    collection. *)
Inductive step : store → store → Prop :=
  | step_create now fresh req s r s' :
      createCoupon now fresh req s = (r, s') → step s s'
  | step_edit req s r s' :
      editCoupon req s = (r, s') → step s s'
  | step_display now s r s' :
      displayCoupons now s = (r, s') → step s s'
  | step_reject req s r s' :
      rejectCouponById req s = (r, s') → step s s'
  | step_delete req s r s' :
      deleteCouponById req s = (r, s') → step s s'.

(** The collections the controller can build from the empty one. *)
Definition reachable (s : store) : Prop := rtc step [] s.

End CouponController.

(** ** Advertisement analytics *)

(** One entry of the viewer log. *)
Record Viewer := mkViewer {
  userId : string;
  viewedAt : Z                  (* milliseconds since the epoch *)
}.

(** Modelled from the spec: the Advertisement model is not part of the
    sources; a record is its scalar fields and its viewer log. *)
Record Advertisement := mkAdvertisement {
  fields : gmap string value;
  viewers : list Viewer
}.

(** The calendar date, in UTC, of a count of days since the epoch. *)
Definition civil_from_days (days : Z) : Z * Z * Z :=
  let z := days + 719468 in
  let era := z / 146097 in
  let doe := z - era * 146097 in
  let yoe := (doe - doe / 1460 + doe / 36524 - doe / 146096) / 365 in
  let doy := doe - (365 * yoe + yoe / 4 - yoe / 100) in
  let mp := (5 * doy + 2) / 153 in
  let d := doy - (153 * mp + 2) / 5 + 1 in
  let m := if mp <? 10 then mp + 3 else mp - 9 in
  let y := yoe + era * 400 + (if m <=? 2 then 1 else 0) in
  (y, m, d).

Definition digit (n : Z) : ascii := ascii_of_nat (48 + Z.to_nat (n mod 10)).

Definition two_digits (n : Z) : string :=
  String (digit (n / 10)) (String (digit n) EmptyString).

Definition four_digits (n : Z) : string :=
  String (digit (n / 1000)) (String (digit (n / 100)) (two_digits n)).

(** [{ $dateToString: { format: "%Y-%m-%d", date } }]; the year must have
    four digits. *)
Definition dateToString (t : Z) : option string :=
  let '(y, m, d) := civil_from_days (t / 86400000) in
  if (0 <=? y) && (y <=? 9999)
  then Some (four_digits y ++ "-" ++ two_digits m ++ "-" ++ two_digits d)
  else None.

(** The accumulators of one group. *)
Record bucket := mkBucket {
  day : string;
  views : nat;                  (* { $sum: 1 } *)
  uniqueUsers : list string     (* { $addToSet: "$viewers.userId" } *)
}.

Definition addToSet (u : string) (set : list string) : list string :=
  if existsb (String.eqb u) set then set else (set ++ [u])%list.

(** One unwound view entering the [$group] stage. *)
Fixpoint add_view (d u : string) (groups : list bucket) : list bucket :=
  match groups with
  | [] => [mkBucket d 1 [u]]
  | b :: rest =>
      if String.eqb (day b) d
      then mkBucket d (S (views b)) (addToSet u (uniqueUsers b)) :: rest
      else b :: add_view d u rest
  end.

(** A line of the answer, after [$project]. *)
Record DayStat := mkDayStat {
  date : string;
  totalViews : nat;
  uniqueUsersCount : nat
}.

Definition project (b : bucket) : DayStat :=
  mkDayStat (day b) (views b) (length (uniqueUsers b)).

(** [{ $sort: { date: -1 } }] on strings. *)
Fixpoint insert_by_date (x : DayStat) (l : list DayStat) : list DayStat :=
  match l with
  | [] => [x]
  | y :: rest =>
      if String.leb (date y) (date x) then x :: l
      else y :: insert_by_date x rest
  end.

Definition sort_by_date_desc (l : list DayStat) : list DayStat :=
  foldr insert_by_date [] l.

(** [{ $unwind: "$viewers" }] over the whole collection. *)
Definition unwind (ads : list Advertisement) : list Viewer :=
  ad ← ads; viewers ad.

(** The key of an unwound view in the [$group] stage: the day of
    [viewedAt], with the user the accumulators need. *)
Definition view_key (v : Viewer) : option (string * string) :=
  (fun d => (d, userId v)) <$> dateToString (viewedAt v).

(** The [$group] stage. *)
Definition group_views (keyed : list (string * string)) : list bucket :=
  foldl (fun acc '(d, u) => add_view d u acc) [] keyed.

(** [analytics]: the aggregation pipeline; a date that cannot be
    formatted fails the request. *)
Definition analytics (ads : list Advertisement)
    : result failure (ApiResponse (list DayStat)) :=
  match mapM view_key (unwind ads) with
  | None => Err (StoreError "can't convert date to string")
  | Some keyed =>
      Ok (mkResponse 200
            (sort_by_date_desc (project <$> group_views keyed))
            "Day-wise analytics data")
  end.

(** ** Instances to run the definitions

    Decimal numerals for numbers and time values, and a scheme test for
    URIs. *)
Fixpoint digits_value (s : string) (acc : Z) : option Z :=
  match s with
  | EmptyString => Some acc
  | String a rest =>
      let n := nat_of_ascii a in
      if ((48 <=? n) && (n <=? 57))%nat
      then digits_value rest (10 * acc + Z.of_nat (n - 48))
      else None
  end.

Definition decimal (s : string) : option Z :=
  match s with
  | EmptyString => None
  | String "-" rest =>
      match rest with
      | EmptyString => None
      | _ => Z.opp <$> digits_value rest 0
      end
  | _ => digits_value s 0
  end.

Definition decimal_joi : JoiLib :=
  {| is_uri := fun s => String.prefix "http://" s || String.prefix "https://" s;
     parse_number := fun s => inject_Z <$> decimal s;
     parse_date := fun s => decimal s |}.

(** ** Notions used by the statements *)

(** The payload [jwt.sign] writes into a token. *)
Definition stamped (payload : gmap string value) (issued span : Z)
    : gmap string value :=
  <["exp" := VNum (inject_Z (issued + span))]>
    (<["iat" := VNum (inject_Z issued)]> payload).

Definition access_payload (this : Principal) : gmap string value :=
  <["id" := VStr (_id this)]> (put_string "email" (email this) ∅).

(** A bearer request. *)
Definition bearer (tok : token) : Request :=
  mkRequest (Some (Bearer (Some tok))) None None.

(** A refresh request carrying its token in the cookie. *)
Definition with_cookie (tok : token) : Request :=
  mkRequest None (Some tok) None.

(** The number Joi reads in a value: a number, or a string that
    converts to one. *)
Definition number_of `{JoiLib} (v : value) : option Q :=
  match v with
  | VNum q => Some q
  | VStr s => parse_number s
  | _ => None
  end.

(** A key is violated when its own validation reports something. *)
Definition violated `{JoiLib} (s : joi_schema) (v : option value) : bool :=
  match (validate_value s v).2 with
  | [] => false
  | _ => true
  end.


(** The keys [couponSchema] requires. *)
Definition required_keys : list string :=
  [ "couponTitle"; "offerTitle"; "offerDescription"; "termsAndConditions";
    "expiryDate" ].

(** A coupon that is active although its expiry date has passed. *)
Definition overdue (now : Z) (d : gmap string value) : bool :=
  date_lte "expiryDate" now d && has_string "status" "active" d.

(** The terminal statuses. *)
Definition terminal (d : gmap string value) : bool :=
  has_string "status" "deleted" d || has_string "status" "rejected" d.


(** The views of a log that fall on calendar day [d]. *)
Definition on_day (d : string) (vs : list Viewer) : list Viewer :=
  filter (fun v => dateToString (viewedAt v) = Some d) vs.

(** The number of distinct users among some views. *)
Definition distinct_users (vs : list Viewer) : nat :=
  size (list_to_set (userId <$> vs) : gset string).

(** Later dates first. *)
Definition later_first (a b : DayStat) : Prop :=
  String.ltb (date b) (date a) = true.

(** The users of the keyed views of day [d]. *)
Definition users_of (d : string) (keyed : list (string * string))
    : list string :=
  (filter (fun p => p.1 = d) keyed).*2.

(** The groups account for the keyed views seen so far. *)
Definition grouped (keyed : list (string * string)) (g : list bucket)
    : Prop :=
  NoDup (day <$> g)
  ∧ (∀ p, p ∈ keyed → p.1 ∈ day <$> g)
  ∧ (∀ b, b ∈ g →
       views b = length (users_of (day b) keyed)
       ∧ (0 < views b)%nat
       ∧ NoDup (uniqueUsers b)
       ∧ ∀ u, u ∈ uniqueUsers b ↔ u ∈ users_of (day b) keyed).

(** ** Sample data *)

Definition sample_env : Env :=
  mkEnv (Some "access-secret") (Some "refresh-secret") None None.

Definition alice : Principal :=
  mkPrincipal "64b7f0c2a1d3e4f5a6b7c8d9" (Some "alice@example.com") None ∅.

(** The access token the user model issues to [alice] at second 1000. *)
Definition alice_token : token :=
  Signed (stamped (access_payload alice) 1000 one_day) "access-secret".

Definition root_id : string := "5f1d7f0c2a1d3e4f5a6b7c8d".

(** Two refresh tokens naming the same administrator under [_id]: the one
    issued first, and the one that replaced it in the store. *)
Definition old_refresh : token :=
  Signed (stamped {[ "_id" := VStr root_id ]} 1000 thirty_days)
         "refresh-secret".

Definition current_refresh : token :=
  Signed (stamped {[ "_id" := VStr root_id ]} 5000 thirty_days)
         "refresh-secret".

Definition root : Principal :=
  mkPrincipal root_id (Some "root@example.com") (Some current_refresh) ∅.

(** An access token, rightly signed, naming an identifier nobody has. *)
Definition ghost_token : token :=
  Signed (stamped {[ "_id" := VStr "000000000000000000000000" ]} 1000 one_day)
         "access-secret".

Definition sample_venture : string := "64b7f0c2a1d3e4f5a6b7c8da".

Definition coupon_id : string := "65a000000000000000000001".

(** A coupon form whose expiry date, 1000, lies before the time of the
    request. *)
Definition diwali_body : gmap string value :=
  <["couponTitle" := VStr "Diwali Sale"]>
    (<["offerTitle" := VStr "20% off"]>
       (<["offerDescription" := VStr "Festive offer"]>
          (<["termsAndConditions" := VStr "One per customer"]>
             (<["expiryDate" := VNum (inject_Z 1000)]> ∅)))).

Definition diwali_form : CouponRequest :=
  mkCouponRequest diwali_body None (Some sample_venture) "".

(** The collection after the form has been posted at time 5000. *)
Definition after_create : list (gmap string value) :=
  (@createCoupon decimal_joi 5000 coupon_id diwali_form []).2.

(** The same form with a claim percentage of 150, sent as text. *)
Definition overclaim_form : CouponRequest :=
  mkCouponRequest (<["claimPercentage" := VStr "150"]> diwali_body)
                  None (Some sample_venture) "".


(** A stored coupon that has been deleted. *)
Definition deleted_coupon : gmap string value :=
  <["_id" := VStr coupon_id]>
    (<["status" := VStr "deleted"]>
       (<["expiryDate" := VDate 1000]> ∅)).

(** An edit of that coupon which asks for another expiry date. *)
Definition edit_form : CouponRequest :=
  mkCouponRequest (<["expiryDate" := VNum (inject_Z 9000)]> ∅) None
                  (Some sample_venture) coupon_id.

(** ** The rest of the coupon controller *)

(** What a counter of an object literal can hold after [++]. *)
Inductive js_count :=
  | Count (n : nat)
  | NaN.

(** The names every object literal inherits from [Object.prototype]. *)
Definition Object_prototype_names : list string :=
  [ "constructor"; "__defineGetter__"; "__defineSetter__"; "hasOwnProperty";
    "__lookupGetter__"; "__lookupSetter__"; "isPrototypeOf";
    "propertyIsEnumerable"; "toString"; "valueOf"; "__proto__";
    "toLocaleString" ].

(** [{ active: 0, expired: 0, deleted: 0, rejected: 0, claimed: 0 }] *)
Definition zero_counts : gmap string js_count :=
  <["active" := Count 0]>
    (<["expired" := Count 0]>
       (<["deleted" := Count 0]>
          (<["rejected" := Count 0]>
             (<["claimed" := Count 0]> ∅)))).

(** [if (statusCounts[status] !== undefined) statusCounts[status]++]: an
    own counter goes up by one; an inherited member is read as not a
    number and, but for [__proto__], stored as such; any other status is
    passed over. *)
Definition count_status (statusCounts : gmap string js_count)
    (coupon : gmap string value) : gmap string js_count :=
  match coupon !! "status" with
  | Some (VStr status) =>
      match statusCounts !! status with
      | Some (Count n) => <[status := Count (S n)]> statusCounts
      | Some NaN => statusCounts
      | None =>
          if bool_decide (status ∈ Object_prototype_names)
             && negb (String.eqb status "__proto__")
          then <[status := NaN]> statusCounts
          else statusCounts
      end
  | _ => statusCounts
  end.

Record VentureCoupons := mkVentureCoupons {
  total : nat;
  statusCounts : gmap string js_count;
  venture_coupons : list (gmap string value)
}.


Section CouponReads.
Context `{Mongoose}.

(** [getVentureCouponsById] *)
Definition getVentureCouponsById (req : CouponRequest)
    (Coupon : list (gmap string value))
    : result failure (ApiResponse VentureCoupons) :=
  match venture req with
  | Some ventureId =>
      if ObjectId_isValid ventureId then
        let found :=
          sort_desc "createdAt"
                    (List.filter (has_string "createdBy" ventureId) Coupon) in
        Ok (mkResponse 200
              (mkVentureCoupons (length found)
                                (foldl count_status zero_counts found)
                                found)
              ("Coupons created by Venture " ++ ventureId
                 ++ " fetched successfully"))
      else Err (Api (mkApiError 400 "Invalid Venture ID" []))
  | None => Err (Api (mkApiError 400 "Invalid Venture ID" []))
  end.


End CouponReads.

(** ** The rest of the advertisement controller *)

(** Modelled from the spec: the Advertisement model is not part of the
    sources.  [Advertisement.create] is taken as it comes: from the clock,
    a fresh identifier and the object handed to it, it yields the stored
    record or fails.  Whether the schema declares the path [isExpired],
    which the sweep sets, is not known either. *)
Class AdvertisementModel := {
  Advertisement_create : Z → string → gmap string value
                         → result failure Advertisement;
  declares_isExpired : bool
}.

(** [!v] is false for these. *)
Definition truthy (v : option value) : bool :=
  match v with
  | None => false
  | Some VNull => false
  | Some (VBool b) => b
  | Some (VNum q) => negb (Qeq_bool q 0)
  | Some (VStr s) => negb (String.eqb s "")
  | Some (VDate _) => true
  end.

Definition ad_has_string (field s : string) (ad : Advertisement) : bool :=
  has_string field s (fields ad).

Definition set_ad_fields (f : gmap string value → gmap string value)
    (ad : Advertisement) : Advertisement :=
  mkAdvertisement (f (fields ad)) (viewers ad).

(** [.sort({ createdAt: -1 })] on advertisements. *)
Fixpoint insert_ad_desc (x : Advertisement) (l : list Advertisement)
    : list Advertisement :=
  match l with
  | [] => [x]
  | y :: rest =>
      if key_ge (date_field "createdAt" (fields x))
                (date_field "createdAt" (fields y))
      then x :: l
      else y :: insert_ad_desc x rest
  end.

Definition sort_ads_desc (l : list Advertisement) : list Advertisement :=
  foldr insert_ad_desc [] l.


(** The answer of [displayAdv]: [{ success: true, data, total }]. *)
Record AdvList := mkAdvList {
  adv_data : list Advertisement;
  adv_total : nat
}.

Section AdvertisementController.
Context `{Mongoose} `{AdvertisementModel}.

(** The three listings by status, [displayAdvertisement],
    [displayDeletedAdvertisement] and [displayExpiredAdvertisement], which
    share their text, message included, but for the status asked for. *)
Definition display_ads_by_status (wanted : string)
    (ads : list Advertisement) : ApiResponse (list Advertisement) :=
  mkResponse 200 (List.filter (ad_has_string "status" wanted) ads)
             "✅ Expired advertisements fetched successfully.".

Definition displayAdvertisement := display_ads_by_status "active".
Definition displayDeletedAdvertisement := display_ads_by_status "deleted".
Definition displayExpiredAdvertisement := display_ads_by_status "expired".

(** The sweep of [displayAdv]:
    [updateMany({ validity: { $lte: now }, status: "active" },
                { $set: { status: "expired", isExpired: true } })]. *)
Definition expire_ads (now : Z) (ads : list Advertisement)
    : list Advertisement :=
  (fun ad =>
     if date_lte "validity" now (fields ad) && ad_has_string "status" "active" ad
     then set_ad_fields
            (fun f => let f' := <["status" := VStr "expired"]> f in
                      if declares_isExpired
                      then <["isExpired" := VBool true]> f' else f')
            ad
     else ad) <$> ads.

(** [displayAdv] *)
Definition displayAdv (now : Z) (ads : list Advertisement)
    : AdvList * list Advertisement :=
  let ads' := expire_ads now ads in
  let advertisements := sort_ads_desc ads' in
  (mkAdvList advertisements (length advertisements), ads').

(** [createItem] *)
Definition createItem (now : Z) (fresh : string) (req : CouponRequest)
    (ads : list Advertisement)
    : result failure (ApiResponse Advertisement) * list Advertisement :=
  let title := body req !! "title" in
  let description := body req !! "description" in
  let validity := body req !! "validity" in
  let img := file req ≫= file_path in
  let ventureId := venture req in
  if negb (truthy title) || negb (truthy description)
     || negb (truthy validity)
  then (Err (Api (mkApiError 400
               "All fields (title, description, validity) are required." [])),
        ads)
  else
    match Advertisement_create now fresh
            (assign "createdBy" (VStr <$> ventureId)
               (assign "img" (VStr <$> img)
                  (assign "validity" validity
                     (assign "description" description
                        (assign "title" title ∅))))) with
    | Err e => (Err e, ads)
    | Ok newAd =>
        (Ok (mkResponse 201 newAd "Advertisement created successfully."),
         (ads ++ [newAd])%list)
    end.



End AdvertisementController.


(** ** Notions used by the further statements *)



Definition access_missing : ApiError :=
  mkApiError 401 "Access token missing" [].
Definition access_invalid : ApiError :=
  mkApiError 401 "Invalid or expired access token" [].
Definition refresh_invalid : ApiError :=
  mkApiError 401 "Refresh token expired or invalid" [].



(** A user whose stored refresh token is the one the user model issued
    to them at second 1000. *)
Definition bob_id : string := "64b7f0c2a1d3e4f5a6b7c8db".

Definition bob_refresh : token :=
  Signed (stamped (<["id" := VStr bob_id]> ∅) 1000 thirty_days)
         "refresh-secret".

Definition bob : Principal :=
  mkPrincipal bob_id (Some "bob@example.com") (Some bob_refresh) ∅.



(** A request with another body. *)
Definition with_body (b : gmap string value) (req : CouponRequest)
    : CouponRequest :=
  mkCouponRequest b (file req) (venture req) (params_id req).

(** A request that addresses another identifier. *)
Definition with_params_id (id : string) (req : CouponRequest)
    : CouponRequest :=
  mkCouponRequest (body req) (file req) (venture req) id.

(** The sample form with a file kept on the local disk. *)
Definition disk_upload_form : CouponRequest :=
  mkCouponRequest diwali_body
                  (Some (mkFile (Some "uploads/logo.png") None))
                  (Some sample_venture) "".

(** The sample form, naming another creator and a logo in its body. *)
Definition spoofing_body : gmap string value :=
  <["createdBy" := VStr "000000000000000000000000"]>
    (<["logo" := VStr "http://example.com/logo.png"]> diwali_body).


(** The claim percentage of a stored coupon is absent or a number
    between 0 and 100. *)
Definition percentage_in_range (d : gmap string value) : Prop :=
  match d !! "claimPercentage" with
  | None => True
  | Some (VNum q) => (0 <= q)%Q ∧ (q <= 100)%Q
  | Some _ => False
  end.

(** The text fields [couponSchema] requires and trims. *)
Definition required_texts : list string :=
  [ "couponTitle"; "offerTitle"; "offerDescription"; "termsAndConditions" ].

(** The sample form with white space around its title and a claim
    percentage of 50, sent as text. *)
Definition padded_form : CouponRequest :=
  mkCouponRequest
    (<["couponTitle" := VStr "  Diwali Sale  "]>
       (<["claimPercentage" := VStr "50"]> diwali_body))
    None (Some sample_venture) "".


(** What every coupon of a collection built by the controller satisfies:
    a creator, an expiry date that is a date, a claim percentage in
    range. *)
Definition well_kept (d : gmap string value) : Prop :=
  percentage_in_range d
  ∧ (∃ v, d !! "createdBy" = Some (VStr v))
  ∧ (∃ t, d !! "expiryDate" = Some (VDate t)).


(** An edit of the sample coupon that tries to set its status. *)
Definition status_patch_form : CouponRequest :=
  mkCouponRequest (<["status" := VStr "active"]> ∅) None
                  (Some sample_venture) coupon_id.

(** A request that addresses the sample coupon. *)
Definition coupon_request : CouponRequest :=
  mkCouponRequest ∅ None (Some sample_venture) coupon_id.


(** Newer documents first, by a date field; a document without the date
    comes last. *)
Definition newest_first (field : string) (a b : gmap string value) : Prop :=
  key_ge (date_field field a) (date_field field b) = true.

(** The statuses [getVentureCouponsById] counts. *)
Definition counted_statuses : list string :=
  [ "active"; "expired"; "deleted"; "rejected"; "claimed" ].

(** A second sample form, posted later by the same venture. *)
Definition second_id : string := "65a000000000000000000002".

Definition two_coupons : list (gmap string value) :=
  (@createCoupon decimal_joi 7000 second_id diwali_form after_create).2.


(** Whether a call answered rather than failed, and a field of the
    document it answered with. *)
Definition answered {E A} (r : result E A) : bool :=
  match r with Ok _ => true | Err _ => false end.

Definition answered_field {E} (k : string)
    (r : result E (ApiResponse (gmap string value))) : option value :=
  match r with Ok resp => data resp !! k | Err _ => None end.


(** An advertisement that is active although its validity has passed. *)
Definition ad_overdue (now : Z) (ad : Advertisement) : bool :=
  date_lte "validity" now (fields ad) && ad_has_string "status" "active" ad.

(** Newer advertisements first. *)
Definition newest_ad_first (a b : Advertisement) : Prop :=
  newest_first "createdAt" (fields a) (fields b).

(** Two requests that agree on all [createItem] reads. *)
Definition same_ad_form (req req' : CouponRequest) : Prop :=
  body req !! "title" = body req' !! "title"
  ∧ body req !! "description" = body req' !! "description"
  ∧ body req !! "validity" = body req' !! "validity"
  ∧ file req ≫= file_path = file req' ≫= file_path
  ∧ venture req = venture req'.

Definition ad_fields_missing : ApiError :=
  mkApiError 400 "All fields (title, description, validity) are required." [].


(** The views the lines of an answer of [analytics] add up to. *)
Definition views_reported (rows : list DayStat) : nat :=
  foldr (fun row n => (totalViews row + n)%nat) 0%nat rows.

(** A model to run the definitions with: [create] stores what it is
    given as an active advertisement nobody has seen, and the schema
    declares [isExpired]. *)
Definition plain_ads : AdvertisementModel :=
  {| Advertisement_create now fresh obj :=
       Ok (mkAdvertisement
             (save_new fresh now (<["status" := VStr "active"]> obj)) []);
     declares_isExpired := true |}.

(** Sample advertisements: one whose validity, 1000, has passed at time
    5000 and which two users have seen on 1 January 2024, and one that is
    valid until 9000. *)
Definition ad_id : string := "66b000000000000000000001".
Definition late_ad_id : string := "66b000000000000000000002".

Definition lapsed_ad : Advertisement :=
  mkAdvertisement
    (<["_id" := VStr ad_id]>
       (<["status" := VStr "active"]>
          (<["validity" := VDate 1000]>
             (<["createdAt" := VDate 500]> ∅))))
    [mkViewer "userA" 1704067200000; mkViewer "userB" 1704070800000].

Definition running_ad : Advertisement :=
  mkAdvertisement
    (<["_id" := VStr late_ad_id]>
       (<["status" := VStr "active"]>
          (<["validity" := VDate 9000]>
             (<["createdAt" := VDate 700]> ∅))))
    [mkViewer "userA" 1704153600000].

Definition sample_ads : list Advertisement := [lapsed_ad; running_ad].

Definition ad_form : CouponRequest :=
  mkCouponRequest
    (<["title" := VStr "Monsoon fair"]>
       (<["description" := VStr "Stalls all week"]>
          (<["validity" := VStr "2024-08-01"]> ∅)))
    None (Some sample_venture) "".


(** * Properties *)

(** Membership in a list that is written out. *)
Ltac in_list :=
  unfold required_keys, couponSchema, editCouponSchema, Coupon_paths; simpl;
  rewrite !elem_of_cons; eauto 20.

(** ** Tokens *)

Lemma Qle_bool_inject_Z (a b : Z) :
  Qle_bool (inject_Z a) (inject_Z b) = (a <=? b).
Proof. unfold Qle_bool, inject_Z; simpl. by rewrite !Z.mul_1_r. Qed.

Lemma truthy_string_Some (s : option string) (k : string) :
  truthy_string s = Some k → s = Some k ∧ k ≠ EmptyString.
Proof. destruct s as [[|a r]|]; simpl; intros [= <-]; done. Qed.

Lemma jwt_sign_inv payload secret span issued tok :
  jwt_sign payload secret span issued = Ok tok →
  ∃ k, truthy_string secret = Some k
       ∧ tok = Signed (stamped payload issued span) k.
Proof.
  unfold jwt_sign. destruct (truthy_string secret) as [k|]; [|done].
  intros [= <-]. by exists k.
Qed.

(** A token verifies under the secret that signed it until it expires. *)
Lemma jwt_verify_sign payload secret span issued tok now :
  jwt_sign payload secret span issued = Ok tok →
  now < issued + span →
  jwt_verify tok secret now = Ok (stamped payload issued span).
Proof.
  intros (k & Hk & ->)%jwt_sign_inv Hnow. unfold jwt_verify.
  rewrite Hk, String.eqb_refl. unfold stamped at 1.
  rewrite lookup_insert_eq, Qle_bool_inject_Z.
  by destruct (Z.leb_spec (issued + span) now); [lia|].
Qed.

(** Verification hands back the payload of the token, nothing else. *)
Lemma jwt_verify_payload tok secret now decoded :
  jwt_verify tok secret now = Ok decoded →
  ∃ key, tok = Signed decoded key ∧ truthy_string secret = Some key.
Proof.
  destruct tok as [payload key|raw]; simpl; [|done].
  destruct (truthy_string secret) as [s|]; [|done].
  destruct (String.eqb_spec key s) as [->|]; [|done].
  destruct (payload !! "exp") as [[| |e| |]|]; try done.
  - destruct (Qle_bool e (inject_Z now)); [done|].
    intros [= <-]. by exists s.
  - intros [= <-]. by exists s.
Qed.

Lemma access_payload__id (this : Principal) issued span :
  stamped (access_payload this) issued span !! "_id" = None
  ∧ stamped (access_payload this) issued span !! "id" = Some (VStr (_id this)).
Proof.
  unfold stamped, access_payload, put_string.
  destruct (email this); by simplify_map_eq.
Qed.

Section MiddlewareFacts.
Context `{Mongoose}.

(** The run of an access-token gate once [jwt.verify] has succeeded and
    the lookup has found nothing. *)
Lemma verifyJWT_with_not_found text env coll now req tok decoded :
  bearer_token req = Some tok →
  jwt_verify tok (ACCESS_TOKEN_SECRET env) now = Ok decoded →
  findById coll (decoded !! "_id") = mret None →
  verifyJWT_with text env coll now req =
    (Err (ExApi (mkApiError 401 "Invalid or expired access token" [])),
     [LogSecret (ACCESS_TOKEN_SECRET env); LogDecoded decoded;
      LogPrincipal None; LogError text]).
Proof.
  intros Hb Hv Hf. unfold verifyJWT_with. rewrite Hb, Hv. simpl.
  unfold mbind, M_bind; simpl. by rewrite Hf.
Qed.

(** What leaves a [try] whose handler always throws the same error. *)
Lemma try_catch_thrown {A} (body : M A) (handler : exn → M A) status e :
  (∀ x e', thrown (handler x) = Some e' → statusCode e' = status) →
  thrown (try_catch body handler) = Some e →
  statusCode e = status.
Proof.
  intros Hh. destruct body as [[a|x] out]; simpl; [done|].
  specialize (Hh x). unfold thrown in *.
  destruct (handler x) as [r out']; simpl in *. apply Hh.
Qed.

(** The access-token gates answer 401 or pass the request on; no other
    status leaves them. *)
Lemma verifyJWT_with_status text env coll now req e :
  thrown (verifyJWT_with text env coll now req) = Some e →
  statusCode e = 401.
Proof.
  unfold verifyJWT_with.
  destruct (bearer_token req) as [tok|]; [|by intros [= <-]].
  apply try_catch_thrown. by intros x e' [= <-].
Qed.

(** The refresh-token gates likewise. *)
Lemma verifyRefreshToken_with_status env coll now req e :
  thrown (verifyRefreshToken_with env coll now req) = Some e →
  statusCode e = 401.
Proof.
  unfold verifyRefreshToken_with.
  destruct (presented_refresh_token req) as [tok|];
    [|by cbv -[statusCode]; intros [= <-]].
  unfold mbind at 1, M_bind at 1, console.
  match goal with |- context [try_catch ?b ?h] =>
    pose proof (try_catch_thrown b h 401 e) as Ht;
    destruct (try_catch b h) as [r out] end.
  intros Hr. apply Ht; [by intros x e' [= <-]|exact Hr].
Qed.

(** A principal handed on by an access-token gate comes from the
    collection and carries no refresh token. *)
Lemma verifyJWT_with_projection text env coll now req p :
  passed (verifyJWT_with text env coll now req) = Some p →
  refreshToken p = None
  ∧ ∃ stored, stored ∈ coll ∧ p = select_without_refreshToken stored.
Proof.
  unfold verifyJWT_with, passed.
  destruct (bearer_token req) as [tok|]; [|done].
  destruct (jwt_verify tok (ACCESS_TOKEN_SECRET env) now) as [decoded|e];
    [|done].
  simpl. unfold findById.
  destruct (decoded !! "_id") as [[| | |s|]|]; try done.
  destruct (ObjectId_isValid s); [|done]. simpl.
  destruct (List.find _ coll) as [stored|] eqn:Hf; [|done].
  simpl. intros [= <-]. split; [done|]. exists stored. split; [|done].
  apply find_some in Hf as [Hin _]. by apply list_elem_of_In.
Qed.

End MiddlewareFacts.

Section AuthClaims.
Context `{Mongoose}.

(** What an issued access token decodes to, and that it verifies. *)
Lemma issued_token_decodes (env : Env) (this : Principal)
    (issued : Z) (tok : token) :
  generateAccessToken env this issued = Ok tok →
  (∀ secret now decoded,
     jwt_verify tok secret now = Ok decoded →
     decoded !! "id" = Some (VStr (_id this))
     ∧ decoded !! "_id" = None
     ∧ ∀ coll, findById coll (decoded !! "_id") = mret None)
  ∧ (∀ now, now < issued + default one_day (ACCESS_TOKEN_EXPIRY env) →
       ∃ decoded, jwt_verify tok (ACCESS_TOKEN_SECRET env) now = Ok decoded).
Proof.
  intros Hgen. split.
  - intros secret now decoded Hv.
    apply jwt_sign_inv in Hgen as (k & _ & ->).
    apply jwt_verify_payload in Hv as (key & [= <- _] & _).
    destruct (access_payload__id this issued
                (default one_day (ACCESS_TOKEN_EXPIRY env))) as [Hno Hid].
    fold (access_payload this).
    change (<["exp":=_]> (<["iat":=_]> (access_payload this)))
      with (stamped (access_payload this) issued
              (default one_day (ACCESS_TOKEN_EXPIRY env))).
    rewrite Hno, Hid. by repeat split.
  - intros now Hnow. eexists. by eapply jwt_verify_sign.
Qed.



(** C5, on the code.  When the bearer token verifies and the lookup finds
    no principal, the gate throws 404 inside its own [try] block and the
    [catch] replaces it: the answer is 401 "Invalid or expired access
    token", for the admin gate and for the user gate. *)
Theorem principal_not_found_answers_401 (env : Env)
    (coll : list Principal) (now : Z) (req : Request) (tok : token)
    (decoded : gmap string value) :
  bearer_token req = Some tok →
  jwt_verify tok (ACCESS_TOKEN_SECRET env) now = Ok decoded →
  findById coll (decoded !! "_id") = mret None →
  thrown (adminverifyJWT env coll now req)
    = Some (mkApiError 401 "Invalid or expired access token" [])
  ∧ thrown (userverifyJWT env coll now req)
    = Some (mkApiError 401 "Invalid or expired access token" [])
  ∧ In (LogError "Admin not found") (snd (adminverifyJWT env coll now req))
  ∧ In (LogError "User not found") (snd (userverifyJWT env coll now req)).
Proof.
  intros Hb Hv Hf. unfold adminverifyJWT, userverifyJWT.
  rewrite !(verifyJWT_with_not_found _ env coll now req tok decoded) by done.
  simpl. tauto.
Qed.

(** C4, on the code.  When the presented refresh token verifies and
    differs from the value stored for the principal it names, the gate
    throws 403 inside its own [try] block and the [catch] replaces it: the
    answer is 401 "Refresh token expired or invalid", for the admin gate
    and for the user gate. *)
Theorem refresh_mismatch_answers_401 (env : Env) (coll : list Principal)
    (now : Z) (req : Request) (tok : token) (decoded : gmap string value)
    (p : Principal) :
  presented_refresh_token req = Some tok →
  jwt_verify tok (REFRESH_TOKEN_SECRET env) now = Ok decoded →
  findById coll (decoded !! "_id") = mret (Some p) →
  refreshToken p ≠ Some tok →
  thrown (verifyAdminRefreshToken env coll now req)
    = Some (mkApiError 401 "Refresh token expired or invalid" [])
  ∧ thrown (verifyRefreshToken env coll now req)
    = Some (mkApiError 401 "Refresh token expired or invalid" []).
Proof.
  intros Hp Hv Hf Hne.
  unfold verifyAdminRefreshToken, verifyRefreshToken, verifyRefreshToken_with.
  rewrite Hp, Hv. simpl. unfold mbind, M_bind; simpl. rewrite Hf.
  unfold mret, M_ret; simpl. by rewrite bool_decide_eq_false_2.
Qed.

End AuthClaims.

(** [alice_token] is what the user model issues to [alice]. *)
Lemma alice_token_issued :
  generateAccessToken sample_env alice 1000 = Ok alice_token.
Proof. reflexivity. Qed.




(** C5 at a token that verifies and names nobody: the admin gate answers
    401 where 404 is thrown. *)
Lemma principal_not_found_answers_401_witness :
  thrown (@adminverifyJWT hex_ids sample_env [root] 2000 (bearer ghost_token))
  = Some (mkApiError 401 "Invalid or expired access token" []).
Proof.
  apply (@principal_not_found_answers_401 hex_ids sample_env [root] 2000
           (bearer ghost_token) ghost_token
           (stamped {[ "_id" := VStr "000000000000000000000000" ]}
                    1000 one_day)); reflexivity.
Defined.

(** C4 at a superseded refresh token: the admin gate answers 401 where
    403 is thrown. *)
Lemma refresh_mismatch_answers_401_witness :
  thrown (@verifyAdminRefreshToken hex_ids sample_env [root] 6000
            (with_cookie old_refresh))
  = Some (mkApiError 401 "Refresh token expired or invalid" []).
Proof.
  apply (@refresh_mismatch_answers_401 hex_ids sample_env [root] 6000
           (with_cookie old_refresh) old_refresh
           (stamped {[ "_id" := VStr root_id ]} 1000 thirty_days) root);
    [reflexivity | reflexivity | reflexivity | vm_compute; discriminate].
Defined.

(** ** Validation *)

Lemma Qlt_bool_true (q r : Q) : Qlt_bool q r = true ↔ (q < r)%Q.
Proof.
  unfold Qlt_bool. rewrite negb_true_iff, <- not_true_iff_false, Qle_bool_iff.
  split; [apply Qnot_le_lt | apply Qlt_not_le].
Qed.


Section JoiFacts.
Context `{JoiLib}.







Lemma key_errors_cons k s ks obj :
  key_errors ((k, s) :: ks) obj
  = (((fun c => {| path := k; code := c |}) <$> (validate_value s (obj !! k)).2)
     ++ key_errors ks obj)%list.
Proof. reflexivity. Qed.



Lemma key_errors_elem (ks : list (string * joi_schema))
    (obj : gmap string value) (k : string) (s : joi_schema) (c : joi_code) :
  (k, s) ∈ ks →
  c ∈ (validate_value s (obj !! k)).2 →
  {| path := k; code := c |} ∈ key_errors ks obj.
Proof.
  induction ks as [|[k0 s0] ks IH]; [by intros ?%elem_of_nil|].
  rewrite key_errors_cons, elem_of_app.
  intros [[= -> ->]|Hin]%elem_of_cons Hc.
  - left. apply list_elem_of_fmap. by exists c.
  - right. by apply IH.
Qed.

(** With [abortEarly: false], a schema that allows unknown keys answers
    with all the violations of its keys. *)
Lemma validate_all (sch : object_schema) (obj : gmap string value) :
  allow_unknown sch = true →
  key_errors (keys sch) obj ≠ [] →
  validate sch obj false = Err (key_errors (keys sch) obj).
Proof.
  intros Ha Hne. unfold validate, unknown_errors. rewrite Ha, app_nil_r.
  by destruct (key_errors (keys sch) obj).
Qed.

Lemma couponSchema_NoDup : NoDup (keys couponSchema).*1.
Proof. apply (bool_decide_unpack _). by vm_compute. Qed.

End JoiFacts.

(** ** Creating a coupon *)

Lemma assign_lookup_ne (k k' : string) (v : option value)
    (obj : gmap string value) :
  k ≠ k' → assign k v obj !! k' = obj !! k'.
Proof.
  intros Hne. unfold assign. destruct v.
  - by rewrite lookup_insert_ne.
  - by rewrite lookup_delete_ne.
Qed.

Section CreateFacts.
Context `{JoiLib} `{Mongoose}.

(** A violated key makes [createCoupon] throw the validation error with
    the violations of all keys, and leaves the collection as it was. *)
Lemma createCoupon_invalid now fresh req ventureId
    (Coupon : list (gmap string value)) :
  venture req = Some ventureId →
  key_errors (keys couponSchema)
             (formData_of req (logoUrl_of req) ventureId) ≠ [] →
  createCoupon now fresh req Coupon
  = (Err (Api (mkApiError 400 "Validation error"
                (Violation <$> key_errors (keys couponSchema)
                   (formData_of req (logoUrl_of req) ventureId)))),
     Coupon).
Proof.
  intros Hv Hne. unfold createCoupon. rewrite Hv.
  by rewrite validate_all.
Qed.

Lemma violated_key_errors k s (obj : gmap string value) :
  (k, s) ∈ keys couponSchema →
  violated s (obj !! k) = true →
  key_errors (keys couponSchema) obj ≠ [].
Proof.
  intros Hin Hviol Hnil. unfold violated in Hviol.
  destruct (validate_value s (obj !! k)).2 as [|c cs] eqn:Hc; [done|].
  assert ({| path := k; code := c |} ∈ key_errors (keys couponSchema) obj)
    as Hd.
  { apply (key_errors_elem _ _ k s); [done|]. rewrite Hc. apply elem_of_cons; by left. }
  rewrite Hnil in Hd. by apply elem_of_nil in Hd.
Qed.


(** C8.  When the claim percentage of a coupon-create request reads as a
    number outside [0, 100], [createCoupon] fails with status 400
    "Validation error", with a message about [claimPercentage], and the
    collection is unchanged: no record is stored. *)
Theorem create_rejects_percentage_out_of_range now fresh req ventureId
    (Coupon : list (gmap string value)) (v : value) (q : Q) :
  venture req = Some ventureId →
  body req !! "claimPercentage" = Some v →
  number_of v = Some q →
  (q < 0 ∨ 100 < q)%Q →
  ∃ details,
    createCoupon now fresh req Coupon
    = (Err (Api (mkApiError 400 "Validation error" (Violation <$> details))),
       Coupon)
    ∧ ∃ c, {| path := "claimPercentage"; code := c |} ∈ details.
Proof.
  intros Hv Hbody Hnum Hout.
  set (formData := formData_of req (logoUrl_of req) ventureId).
  set (s := Joi_number |> min 0 |> max 100 |> optional).
  assert (Hin : ("claimPercentage", s) ∈ keys couponSchema).
  { unfold couponSchema; simpl. rewrite !elem_of_cons; eauto 12. }
  assert (Hform : formData !! "claimPercentage" = Some v).
  { unfold formData, formData_of. by rewrite !assign_lookup_ne. }
  assert (Hc : ∃ c, c ∈ (validate_value s (formData !! "claimPercentage")).2).
  { rewrite Hform. unfold validate_value.
    assert (coerce s v = VNum q) as ->.
    { unfold coerce, number_of in *; simpl.
      destruct v; try done; [by injection Hnum as ->|by rewrite Hnum]. }
    unfold s; simpl.
    destruct (check_base _ _); simpl; [eexists; apply elem_of_cons; by left|].
    destruct Hout as [Hlo|Hhi].
    - apply Qlt_bool_true in Hlo. rewrite Hlo; simpl.
      eexists; apply elem_of_cons; by left.
    - apply Qlt_bool_true in Hhi. rewrite Hhi; simpl.
      destruct (Qlt_bool q 0); simpl; eexists; apply elem_of_cons; eauto. }
  destruct Hc as [c Hc].
  exists (key_errors (keys couponSchema) formData). split.
  - apply createCoupon_invalid; [done|].
    eapply (violated_key_errors "claimPercentage" s); [done|].
    unfold violated. by destruct (validate_value s _).2; [apply elem_of_nil in Hc|].
  - exists c. by eapply key_errors_elem.
Qed.

End CreateFacts.

(** ** The collection under updates *)

Lemma updateMany_Forall2 (R : gmap string value → gmap string value → Prop)
    matches set (coll : list (gmap string value)) :
  (∀ d, R d d) →
  (∀ d, matches d = true → R d (set d)) →
  Forall2 R coll (updateMany matches set coll).
Proof.
  intros Hrefl Hset. induction coll as [|d coll IH]; [constructor|].
  unfold updateMany; csimpl. constructor; [|exact IH].
  destruct (matches d) eqn:Hm; auto.
Qed.

Lemma update_by_id_Forall2 (R : gmap string value → gmap string value → Prop)
    id set (coll : list (gmap string value)) :
  (∀ d, R d d) →
  (∀ d, d ∈ coll → has_string "_id" id d = true → R d (set d)) →
  Forall2 R coll (update_by_id id set coll).
Proof.
  intros Hrefl. induction coll as [|d coll IH]; intros Hset; [constructor|].
  simpl. destruct (has_string "_id" id d) eqn:Hm.
  - constructor; [apply Hset; [apply elem_of_cons; by left|done]|].
    clear IH Hset Hm. induction coll; constructor; auto.
  - constructor; [done|]. apply IH. intros d' Hd'. apply Hset.
    apply elem_of_cons; by right.
Qed.

Lemma Forall2_same_place {A} (R : A → A → Prop) (l l' : list A) i d :
  Forall2 R l l' → l !! i = Some d → ∃ d', l' !! i = Some d' ∧ R d d'.
Proof. intros HF Hi. by eapply Forall2_lookup_l. Qed.

Lemma Forall2_preserves {A} (P : A → Prop) (l l' : list A) :
  Forall2 (fun d d' => P d → P d') l l' → Forall P l → Forall P l'.
Proof.
  induction 1 as [|d d' l l' Hd _ IH]; [done|].
  intros [Hp Hl]%Forall_cons. constructor; auto.
Qed.

Lemma find_some_elem (f : gmap string value → bool)
    (coll : list (gmap string value)) d :
  List.find f coll = Some d → d ∈ coll ∧ f d = true.
Proof. intros [Hin Hf]%find_some. split; [by apply list_elem_of_In|done]. Qed.

(** Sorting rearranges, no more. *)
Lemma insert_desc_perm key x (l : list (gmap string value)) :
  insert_desc key x l ≡ₚ x :: l.
Proof.
  induction l as [|y l IH]; [done|]. simpl.
  destruct (key_ge (key x) (key y)); [done|].
  rewrite IH. apply perm_swap.
Qed.

Lemma sort_desc_perm field (l : list (gmap string value)) :
  sort_desc field l ≡ₚ l.
Proof.
  unfold sort_desc. induction l as [|x l IH]; [done|]. simpl.
  by rewrite insert_desc_perm, IH.
Qed.

(** The sweep, document by document. *)
Lemma overdue_after_sweep now (d : gmap string value) :
  overdue now (<["status" := VStr "expired"]> d) = false.
Proof.
  unfold overdue, has_string. rewrite lookup_insert_eq. simpl.
  apply andb_false_r.
Qed.

Lemma auto_expire_Forall2 now (coll : list (gmap string value)) :
  Forall2 (fun d d' =>
             if overdue now d then d' = <["status" := VStr "expired"]> d
             else d' = d)
          coll (auto_expire now coll).
Proof.
  unfold auto_expire. fold (overdue now).
  induction coll as [|d coll IH]; [constructor|].
  unfold updateMany; csimpl. constructor; [|exact IH].
  change (date_lte "expiryDate" now d && has_string "status" "active" d)
    with (overdue now d).
  by destruct (overdue now d).
Qed.


Lemma terminal_not_active (d : gmap string value) :
  terminal d = true → has_string "status" "active" d = false.
Proof.
  unfold terminal, has_string.
  destruct (d !! "status") as [[| | |s|]|]; try done.
  intros [Hs|Hs]%orb_true_iff; apply String.eqb_eq in Hs; by subst.
Qed.

(** What the listings show of a coupon. *)
Lemma copy_field_lookup from to (d acc : gmap string value) k :
  copy_field from to d acc !! k
  = if decide (to = k) then
      match d !! from with Some v => Some v | None => acc !! k end
    else acc !! k.
Proof.
  unfold copy_field. destruct (d !! from) as [v|].
  - rewrite lookup_insert. by destruct (decide (to = k)).
  - by destruct (decide (to = k)).
Qed.

Lemma view_lookup_out (pairs : list (string * string))
    (d : gmap string value) k :
  k ∉ pairs.*1 →
  foldr (fun '(to, from) acc => copy_field from to d acc) ∅ pairs !! k = None.
Proof.
  induction pairs as [|[to from] pairs IH]; [done|]. simpl.
  intros [Hne Hk]%not_elem_of_cons. rewrite copy_field_lookup.
  destruct (decide (to = k)); [congruence|auto].
Qed.

Lemma view_lookup_in (pairs : list (string * string))
    (d : gmap string value) k from :
  NoDup pairs.*1 →
  (k, from) ∈ pairs →
  foldr (fun '(to, from) acc => copy_field from to d acc) ∅ pairs !! k
  = d !! from.
Proof.
  induction pairs as [|[to0 from0] pairs IH]; [by intros _ ?%elem_of_nil|].
  simpl. intros [Hout Hnd]%NoDup_cons Hin. rewrite copy_field_lookup.
  apply elem_of_cons in Hin as [[= -> ->]|Hin].
  - rewrite decide_True by done. destruct (d !! from0); [done|].
    by apply view_lookup_out.
  - rewrite decide_False; [by apply IH|].
    intros ->. apply Hout. apply list_elem_of_fmap. by exists (k, from).
Qed.

Lemma coupon_view_status (d : gmap string value) :
  coupon_view d !! "status" = d !! "status".
Proof.
  unfold coupon_view. apply view_lookup_in.
  - apply (bool_decide_unpack _). by vm_compute.
  - rewrite !elem_of_cons; eauto 12.
Qed.



(** ** What a validated object holds *)

Section ValidatedFacts.
Context `{JoiLib}.

Lemma validate_value_fst (s : joi_schema) (v : value) :
  (validate_value s (Some v)).1 = Some (coerce s v).
Proof.
  unfold validate_value. destruct (bool_decide _); [done|].
  by destruct (check_base s (coerce s v)).
Qed.

Lemma validate_value_fst_None (s : joi_schema) :
  (validate_value s None).1 = None.
Proof. done. Qed.

Lemma convert_lookup_out ks (obj acc : gmap string value) k :
  k ∉ ks.*1 → foldl (convert_step obj) acc ks !! k = acc !! k.
Proof.
  revert acc. induction ks as [|[k0 s0] ks IH]; intros acc; [done|].
  simpl. intros [Hne Hk]%not_elem_of_cons. rewrite IH by done.
  unfold convert_step; simpl.
  destruct (validate_value s0 (obj !! k0)).1; [|done].
  by rewrite lookup_insert_ne.
Qed.

Lemma convert_lookup_in ks (obj acc : gmap string value) k s :
  NoDup ks.*1 →
  (k, s) ∈ ks →
  foldl (convert_step obj) acc ks !! k
  = match (validate_value s (obj !! k)).1 with
    | Some v => Some v
    | None => acc !! k
    end.
Proof.
  revert acc. induction ks as [|[k0 s0] ks IH]; intros acc;
    [by intros _ ?%elem_of_nil|].
  simpl. intros [Hout Hnd]%NoDup_cons [[= -> ->]|Hin]%elem_of_cons.
  - rewrite convert_lookup_out by done. unfold convert_step; simpl.
    destruct (validate_value s0 (obj !! k0)).1; [|done].
    by rewrite lookup_insert_eq.
  - rewrite IH by done.
    destruct (validate_value s (obj !! k)).1; [done|].
    unfold convert_step; simpl.
    destruct (validate_value s0 (obj !! k0)).1; [|done].
    rewrite lookup_insert_ne; [done|].
    intros ->. apply Hout. apply list_elem_of_fmap. by exists (k, s).
Qed.

Lemma validate_Ok_inv sch (obj : gmap string value) abortEarly validated :
  validate sch obj abortEarly = Ok validated →
  validated = converted (keys sch) obj
  ∧ key_errors (keys sch) obj = []
  ∧ unknown_errors sch obj = [].
Proof.
  unfold validate.
  destruct (key_errors (keys sch) obj ++ unknown_errors sch obj)%list
    as [|d ds] eqn:He; [|done].
  intros [= <-]. by apply app_eq_nil in He as [-> ->].
Qed.

(** A schema that does not allow unknown keys accepts no object that has
    one. *)
Lemma no_unknown_key sch (obj : gmap string value) k :
  allow_unknown sch = false →
  unknown_errors sch obj = [] →
  k ∉ (keys sch).*1 →
  obj !! k = None.
Proof.
  intros Ha Hu Hk. unfold unknown_errors in Hu. rewrite Ha in Hu.
  apply fmap_nil_inv in Hu.
  destruct (obj !! k) as [v|] eqn:Hv; [exfalso|done].
  assert (In k (List.filter
                  (fun k => negb (bool_decide (k ∈ (keys sch).*1)))
                  (map_to_list obj).*1)) as Hin.
  { apply filter_In. split.
    - apply list_elem_of_In, list_elem_of_fmap. exists (k, v).
      split; [done|]. by apply elem_of_map_to_list.
    - by rewrite bool_decide_eq_false_2. }
  by rewrite Hu in Hin.
Qed.

(** What [editCouponSchema] lets through has no [status]. *)
Lemma edit_value_has_no_status (obj validated : gmap string value) :
  validate editCouponSchema obj false = Ok validated →
  validated !! "status" = None.
Proof.
  intros (-> & _ & Hu)%validate_Ok_inv.
  assert ("status" ∉ (keys editCouponSchema).*1) as Hk.
  { apply (bool_decide_unpack _). by vm_compute. }
  unfold converted. rewrite convert_lookup_out by done.
  by apply (no_unknown_key editCouponSchema).
Qed.

End ValidatedFacts.


Lemma strict_lookup_None (obj : gmap string value) k :
  obj !! k = None → strict obj !! k = None.
Proof.
  intros Hk. unfold strict. apply map_lookup_filter_None. by left.
Qed.

Lemma strict_lookup_in (obj : gmap string value) k :
  k ∈ Coupon_paths → strict obj !! k = obj !! k.
Proof.
  intros Hk. unfold strict. destruct (obj !! k) as [v|] eqn:Hv.
  - by apply map_lookup_filter_Some.
  - apply map_lookup_filter_None. by left.
Qed.


(** ** Listings and the sweep *)



Section LifecycleClaims.
Context `{JoiLib} `{Mongoose}.

(** An edit changes no status. *)
Lemma editCoupon_keeps_status req (Coupon : list (gmap string value)) r s' :
  editCoupon req Coupon = (r, s') →
  Forall2 (fun d d' => d' !! "status" = d !! "status") Coupon s'.
Proof.
  assert (Hsame : Forall2 (fun d d' : gmap string value =>
                             d' !! "status" = d !! "status") Coupon Coupon).
  { induction Coupon; constructor; auto. }
  unfold editCoupon. destruct (Coupon_findById _ _) as [[existing|]|e];
    [|by intros [= _ <-]..].
  destruct (validate editCouponSchema _ false) as [validated|details] eqn:Hval;
    [|by intros [= _ <-]].
  intros [= _ <-]. apply update_by_id_Forall2; [done|].
  intros d _ _. rewrite lookup_union_r; [done|].
  apply strict_lookup_None. by eapply edit_value_has_no_status.
Qed.

(** C6.  A coupon whose status is [deleted] or [rejected] keeps that
    status through every auto-expiry sweep, through every unfiltered
    listing (which sweeps), and through every edit: the sweep matches
    active coupons only and leaves the others untouched, and the edit
    schema admits no [status] field. *)
Theorem terminal_status_is_kept (Coupon : list (gmap string value))
    (i : nat) (d : gmap string value) :
  Coupon !! i = Some d →
  terminal d = true →
  (∀ now, auto_expire now Coupon !! i = Some d)
  ∧ (∀ now r s', displayCoupons now Coupon = (r, s') → s' !! i = Some d)
  ∧ (∀ req r s', editCoupon req Coupon = (r, s') →
       ∃ d', s' !! i = Some d' ∧ d' !! "status" = d !! "status"
             ∧ terminal d' = true).
Proof.
  intros Hi Hterm.
  assert (Hsweep : ∀ now, auto_expire now Coupon !! i = Some d).
  { intros now.
    destruct (Forall2_same_place _ _ _ i d (auto_expire_Forall2 now Coupon) Hi)
      as (d' & Hi' & Hd').
    unfold overdue in Hd'. rewrite (terminal_not_active d Hterm) in Hd'.
    rewrite andb_false_r in Hd'. by subst. }
  split; [done|]. split.
  - intros now r s' [= _ <-]. apply Hsweep.
  - intros req r s' Hedit.
    destruct (Forall2_same_place _ _ _ i d
                (editCoupon_keeps_status req Coupon r s' Hedit) Hi)
      as (d' & Hi' & Hd').
    exists d'. repeat split; [done..|].
    unfold terminal, has_string in *. by rewrite Hd'.
Qed.

End LifecycleClaims.

(** ** The creator reference *)

Section CreatorClaims.
Context `{JoiLib} `{Mongoose}.


(** What [createCoupon] stores. *)
Lemma createCoupon_Ok_inv now fresh req
    (s : list (gmap string value)) resp s' :
  createCoupon now fresh req s = (Ok resp, s') →
  ∃ ventureId validated,
    venture req = Some ventureId
    ∧ validate couponSchema (formData_of req (logoUrl_of req) ventureId) false
      = Ok validated
    ∧ data resp = save_new fresh now (Coupon_new validated)
    ∧ s' = (s ++ [data resp])%list.
Proof.
  unfold createCoupon. destruct (venture req) as [ventureId|]; [|done].
  destruct (validate couponSchema _ false) as [validated|details] eqn:Hval;
    [|done].
  intros [= <- <-]. by exists ventureId, validated.
Qed.





End CreatorClaims.

(** ** The properties at the sample data *)

(** What the sample form leaves in the collection. *)
Lemma after_create_eq :
  after_create
  = [ <["_id" := VStr coupon_id]>
        (<["createdAt" := VDate 5000]>
           (<["status" := VStr "active"]>
              (<["viewCount" := VNum 0]>
                 (<["createdBy" := VStr sample_venture]>
                    (<["logo" := VNull]>
                       (<["expiryDate" := VDate 1000]>
                          (<["couponTitle" := VStr "Diwali Sale"]>
                             (<["offerTitle" := VStr "20% off"]>
                                (<["offerDescription" := VStr "Festive offer"]>
                                   (<["termsAndConditions" := VStr "One per customer"]>
                                      ∅)))))))))) ].
Proof. vm_compute. reflexivity. Qed.



(** C6 at a deleted coupon: the sweep leaves it, and an accepted edit of
    its expiry date leaves it deleted. *)
Lemma terminal_status_is_kept_witness :
  auto_expire 6000 [deleted_coupon] !! 0%nat = Some deleted_coupon
  ∧ ∃ d', (@editCoupon decimal_joi hex_ids edit_form [deleted_coupon]).2
            !! 0%nat = Some d'
          ∧ d' !! "expiryDate" = Some (VDate 9000)
          ∧ d' !! "status" = Some (VStr "deleted").
Proof.
  destruct (@terminal_status_is_kept decimal_joi hex_ids [deleted_coupon]
              0%nat deleted_coupon eq_refl eq_refl) as (Hsweep & _ & Hedit).
  split; [apply Hsweep|].
  destruct (Hedit edit_form _ _ (surjective_pairing _))
    as (d' & Hd' & Hstatus & _).
  exists d'. split; [exact Hd'|]. split.
  - vm_compute in Hd'. injection Hd' as <-. reflexivity.
  - rewrite Hstatus. reflexivity.
Defined.


(** C8 at a claim percentage of 150: refused, nothing stored. *)
Lemma create_rejects_percentage_out_of_range_witness :
  ∃ details,
    @createCoupon decimal_joi 5000 coupon_id overclaim_form []
    = (Err (Api (mkApiError 400 "Validation error" (Violation <$> details))),
       [])
    ∧ ∃ c, {| path := "claimPercentage"; code := c |} ∈ details.
Proof.
  apply (@create_rejects_percentage_out_of_range decimal_joi 5000 coupon_id
           overclaim_form sample_venture [] (VStr "150") (inject_Z 150));
    [reflexivity | reflexivity | reflexivity | right; reflexivity].
Defined.

(** The sample collection after an unfiltered listing is one the
    controller can build. *)
Lemma swept_sample_reachable :
  @reachable decimal_joi hex_ids (auto_expire 6000 after_create).
Proof.
  unfold reachable. eapply rtc_l; [|eapply rtc_once].
  - eapply (step_create 5000 coupon_id diwali_form []).
    apply surjective_pairing.
  - eapply (step_display 6000). reflexivity.
Qed.


(** ** Analytics *)

Lemma string_ltb_trans (a b c : string) :
  String.ltb a b = true → String.ltb b c = true → String.ltb a c = true.
Proof.
  unfold String.ltb. intros H1 H2.
  destruct (String.compare a b) eqn:E1; try discriminate.
  destruct (String.compare b c) eqn:E2; try discriminate.
  change (String_as_OT.cmp a b = Lt) in E1.
  change (String_as_OT.cmp b c = Lt) in E2.
  apply String_as_OT.cmp_lt in E1, E2.
  pose proof (String_as_OT.lt_trans _ _ _ E1 E2) as E3.
  apply String_as_OT.cmp_lt in E3.
  change (String.compare a c = Lt) in E3. by rewrite E3.
Qed.

Lemma string_leb_ltb (a b : string) :
  String.leb a b = true → a ≠ b → String.ltb a b = true.
Proof.
  unfold String.leb, String.ltb. intros Hle Hne.
  destruct (String.compare a b) eqn:E; [|done|done].
  by apply String.compare_eq_iff in E.
Qed.

Lemma string_leb_false (a b : string) :
  String.leb a b = false → String.ltb b a = true.
Proof.
  unfold String.leb, String.ltb. rewrite (String.compare_antisym a b).
  by destruct (String.compare b a).
Qed.

Lemma insert_by_date_perm (x : DayStat) (l : list DayStat) :
  insert_by_date x l ≡ₚ x :: l.
Proof.
  induction l as [|y l IH]; [done|]. simpl.
  destruct (String.leb (date y) (date x)); [done|].
  rewrite IH. apply perm_swap.
Qed.

Lemma sort_by_date_desc_perm (l : list DayStat) :
  sort_by_date_desc l ≡ₚ l.
Proof.
  unfold sort_by_date_desc. induction l as [|x l IH]; [done|]. simpl.
  by rewrite insert_by_date_perm, IH.
Qed.

Lemma insert_by_date_sorted (x : DayStat) (l : list DayStat) :
  StronglySorted later_first l →
  date x ∉ date <$> l →
  StronglySorted later_first (insert_by_date x l).
Proof.
  induction 1 as [|y l Hl IH Hy]; intros Hx; simpl.
  { repeat constructor. }
  apply not_elem_of_cons in Hx as [Hxy Hx].
  destruct (String.leb (date y) (date x)) eqn:Hle.
  - assert (later_first x y) as Hfirst.
    { apply string_leb_ltb; [done|congruence]. }
    constructor; [by constructor|]. constructor; [done|].
    eapply Forall_impl; [exact Hy|]. intros z Hz.
    unfold later_first in *. by eapply string_ltb_trans.
  - constructor; [by apply IH|].
    rewrite insert_by_date_perm. constructor; [|done].
    by apply string_leb_false.
Qed.

Lemma sort_by_date_desc_sorted (l : list DayStat) :
  NoDup (date <$> l) → StronglySorted later_first (sort_by_date_desc l).
Proof.
  unfold sort_by_date_desc. induction l as [|x l IH]; simpl.
  { constructor. }
  intros [Hx Hl]%NoDup_cons. apply insert_by_date_sorted; [by apply IH|].
  fold (sort_by_date_desc l). by rewrite sort_by_date_desc_perm.
Qed.

(** [$addToSet] *)
Lemma existsb_eqb_elem (u : string) (set : list string) :
  existsb (String.eqb u) set = true ↔ u ∈ set.
Proof.
  rewrite existsb_exists. split.
  - intros (x & Hx & ->%String.eqb_eq). by apply list_elem_of_In.
  - intros Hu. exists u. split; [by apply list_elem_of_In|apply String.eqb_refl].
Qed.

Lemma addToSet_elem (u x : string) (set : list string) :
  x ∈ addToSet u set ↔ x = u ∨ x ∈ set.
Proof.
  unfold addToSet. destruct (existsb (String.eqb u) set) eqn:He.
  - apply existsb_eqb_elem in He. split; [by right|]. by intros [->|].
  - rewrite elem_of_app, list_elem_of_singleton. tauto.
Qed.

Lemma addToSet_NoDup (u : string) (set : list string) :
  NoDup set → NoDup (addToSet u set).
Proof.
  intros Hnd. unfold addToSet.
  destruct (existsb (String.eqb u) set) eqn:He; [done|].
  apply NoDup_app. split; [done|]. split; [|apply NoDup_singleton].
  intros x Hx ->%list_elem_of_singleton.
  apply existsb_eqb_elem in Hx. congruence.
Qed.

(** [$group], one view at a time. *)
Lemma add_view_days (d u : string) (g : list bucket) :
  day <$> add_view d u g
  = if bool_decide (d ∈ day <$> g) then day <$> g
    else ((day <$> g) ++ [d])%list.
Proof.
  induction g as [|b g IH]; [done|]. simpl.
  destruct (String.eqb_spec (day b) d) as [Heq|Hne]; csimpl.
  - rewrite bool_decide_eq_true_2; [by rewrite Heq|].
    apply elem_of_cons; by left.
  - rewrite IH. destruct (bool_decide (d ∈ day <$> g)) eqn:Hd.
    + apply bool_decide_eq_true in Hd.
      rewrite bool_decide_eq_true_2; [done|]. apply elem_of_cons; by right.
    + apply bool_decide_eq_false in Hd.
      rewrite bool_decide_eq_false_2; [done|].
      by intros [?|?]%elem_of_cons; [congruence|].
Qed.

Lemma add_view_elem (d u : string) (g : list bucket) (b' : bucket) :
  NoDup (day <$> g) →
  b' ∈ add_view d u g →
  (b' ∈ g ∧ day b' ≠ d)
  ∨ (∃ b, b ∈ g ∧ day b = d
          ∧ b' = mkBucket d (S (views b)) (addToSet u (uniqueUsers b)))
  ∨ ((d ∉ day <$> g) ∧ b' = mkBucket d 1 [u]).
Proof.
  induction g as [|b g IH]; simpl.
  { intros _ ->%list_elem_of_singleton. right; right.
    split; [apply not_elem_of_nil|done]. }
  intros [Hb Hnd]%NoDup_cons.
  destruct (String.eqb_spec (day b) d) as [Heq|Hne].
  - intros [->|Hin]%elem_of_cons.
    + right; left. exists b. split; [apply elem_of_cons; by left|done].
    + left. split; [apply elem_of_cons; by right|].
      intros Hd. apply Hb. rewrite Heq, <- Hd.
      apply list_elem_of_fmap. by exists b'.
  - intros [->|Hin]%elem_of_cons.
    + left. split; [apply elem_of_cons; by left|done].
    + destruct (IH Hnd Hin) as [[Hg Hd]|[(b0 & Hg & Hd & ->)|[Hd ->]]].
      * left. split; [apply elem_of_cons; by right|done].
      * right; left. exists b0. split; [apply elem_of_cons; by right|done].
      * right; right. split; [|done].
        by intros [?|?]%elem_of_cons; [congruence|].
Qed.

Lemma users_of_snoc (d d' u : string) (keyed : list (string * string)) :
  users_of d (keyed ++ [(d', u)])
  = (users_of d keyed ++ (if decide (d' = d) then [u] else []))%list.
Proof.
  unfold users_of. rewrite filter_app, fmap_app. f_equal.
  rewrite filter_cons. simpl. by destruct (decide (d' = d)).
Qed.

Lemma users_of_none (d : string) (keyed : list (string * string)) :
  (∀ p, p ∈ keyed → p.1 ≠ d) → users_of d keyed = [].
Proof.
  intros Hno. unfold users_of.
  induction keyed as [|p keyed IH]; [done|].
  rewrite filter_cons_False.
  - apply IH. intros q Hq. apply Hno. apply elem_of_cons; by right.
  - apply Hno. apply elem_of_cons; by left.
Qed.

Lemma grouped_step (d u : string) (keyed : list (string * string))
    (g : list bucket) :
  grouped keyed g → grouped (keyed ++ [(d, u)]) (add_view d u g).
Proof.
  intros (Hnd & Hdays & Hb). split; [|split].
  - rewrite add_view_days. destruct (bool_decide (d ∈ day <$> g)) eqn:Hd; [done|].
    apply bool_decide_eq_false in Hd. apply NoDup_app.
    split; [done|]. split; [|apply NoDup_singleton].
    by intros x Hx ->%list_elem_of_singleton.
  - intros p Hp. rewrite add_view_days.
    apply elem_of_app in Hp as [Hp| ->%list_elem_of_singleton].
    + specialize (Hdays p Hp).
      destruct (bool_decide (d ∈ day <$> g)); [done|].
      apply elem_of_app; by left.
    + simpl. destruct (bool_decide (d ∈ day <$> g)) eqn:Hd.
      * by apply bool_decide_eq_true in Hd.
      * apply elem_of_app; right. by apply list_elem_of_singleton.
  - intros b' Hb'.
    destruct (add_view_elem d u g b' Hnd Hb')
      as [[Hg Hne]|[(b & Hg & <- & ->)|[Hd ->]]].
    + destruct (Hb b' Hg) as (Hv & Hpos & Hu & Hiff).
      rewrite users_of_snoc, decide_False by congruence.
      by rewrite app_nil_r.
    + destruct (Hb b Hg) as (Hv & Hpos & Hu & Hiff). simpl.
      rewrite users_of_snoc, decide_True by done.
      rewrite length_app; simpl. split; [lia|]. split; [lia|].
      split; [by apply addToSet_NoDup|].
      intros x. rewrite addToSet_elem, elem_of_app, list_elem_of_singleton, Hiff.
      tauto.
    + simpl. rewrite users_of_snoc, decide_True by done.
      rewrite users_of_none.
      * simpl. split; [done|]. split; [lia|].
        split; [apply NoDup_singleton|done].
      * intros p Hp Heq. apply Hd. rewrite <- Heq. by apply Hdays.
Qed.

Lemma group_views_grouped (keyed : list (string * string)) :
  grouped keyed (group_views keyed).
Proof.
  unfold group_views. induction keyed as [|[d u] keyed IH] using rev_ind.
  - split; [constructor|]. split; [by intros p ?%elem_of_nil|].
    by intros b ?%elem_of_nil.
  - rewrite foldl_snoc. by apply grouped_step.
Qed.

Lemma keyed_users (vs : list Viewer) (keyed : list (string * string))
    (d : string) :
  mapM view_key vs = Some keyed →
  users_of d keyed = userId <$> on_day d vs.
Proof.
  intros HF%mapM_Some_1. unfold users_of, on_day.
  induction HF as [|v p vs keyed Hv _ IH]; [done|].
  unfold view_key in Hv.
  destruct (dateToString (viewedAt v)) as [d'|] eqn:Hd; [|done].
  injection Hv as <-. rewrite !filter_cons. simpl. rewrite Hd.
  destruct (decide (d' = d)) as [->|Hne].
  - rewrite decide_True by done. csimpl. by rewrite IH.
  - rewrite decide_False by congruence. exact IH.
Qed.

Lemma keyed_days (vs : list Viewer) (keyed : list (string * string))
    (v : Viewer) :
  mapM view_key vs = Some keyed →
  v ∈ vs →
  ∃ p, p ∈ keyed ∧ dateToString (viewedAt v) = Some p.1.
Proof.
  intros HF%mapM_Some_1 Hv.
  induction HF as [|v0 p vs keyed Hv0 _ IH]; [by apply elem_of_nil in Hv|].
  apply elem_of_cons in Hv as [->|Hv].
  - exists p. split; [apply elem_of_cons; by left|].
    unfold view_key in Hv0.
    destruct (dateToString (viewedAt v0)); [|done]. by injection Hv0 as <-.
  - destruct (IH Hv) as (q & Hq & Hd). exists q.
    split; [apply elem_of_cons; by right|done].
Qed.



(** * Further properties *)

(** ** The gates, case by case *)

Section GateRuns.
Context `{Mongoose}.

(** [findById] writes nothing to the console. *)
Lemma findById_quiet (coll : list Principal) (key : option value) :
  snd (findById coll key) = [].
Proof.
  unfold findById. destruct key as [[| | |s|]|]; try done.
  by destruct (ObjectId_isValid s).
Qed.


(** The run of an access-token gate on a request that carries a token. *)
Lemma verifyJWT_with_run text env coll now req tok :
  bearer_token req = Some tok →
  verifyJWT_with text env coll now req =
  match jwt_verify tok (ACCESS_TOKEN_SECRET env) now with
  | Err e =>
      (Err (ExApi access_invalid),
       [LogSecret (ACCESS_TOKEN_SECRET env); LogError (jwt_message e)])
  | Ok decoded =>
      match fst (findById coll (decoded !! "_id")) with
      | Err x =>
          (Err (ExApi access_invalid),
           [LogSecret (ACCESS_TOKEN_SECRET env); LogDecoded decoded;
            LogError (exn_message x)])
      | Ok None =>
          (Err (ExApi access_invalid),
           [LogSecret (ACCESS_TOKEN_SECRET env); LogDecoded decoded;
            LogPrincipal None; LogError text])
      | Ok (Some stored) =>
          (Ok (select_without_refreshToken stored),
           [LogSecret (ACCESS_TOKEN_SECRET env); LogDecoded decoded;
            LogPrincipal (Some (select_without_refreshToken stored))])
      end
  end.
Proof.
  intros Hb. unfold verifyJWT_with. rewrite Hb.
  destruct (jwt_verify tok (ACCESS_TOKEN_SECRET env) now) as [decoded|e];
    [|done].
  pose proof (findById_quiet coll (decoded !! "_id")) as Hq.
  simpl. unfold mbind, M_bind; simpl.
  destruct (findById coll (decoded !! "_id")) as [[[stored|]|x] out];
    simpl in *; by subst.
Qed.

(** The run of a refresh-token gate on a request that presents a token. *)
Lemma verifyRefreshToken_with_run env coll now req tok :
  presented_refresh_token req = Some tok →
  verifyRefreshToken_with env coll now req =
  match jwt_verify tok (REFRESH_TOKEN_SECRET env) now with
  | Err e => (Err (ExApi refresh_invalid), [LogToken (Some tok)])
  | Ok decoded =>
      match fst (findById coll (decoded !! "_id")) with
      | Err x =>
          (Err (ExApi refresh_invalid),
           [LogToken (Some tok); LogDecoded decoded])
      | Ok None =>
          (Err (ExApi refresh_invalid),
           [LogToken (Some tok); LogDecoded decoded; LogPrincipal None])
      | Ok (Some stored) =>
          (if bool_decide (refreshToken stored = Some tok)
           then Ok stored else Err (ExApi refresh_invalid),
           [LogToken (Some tok); LogDecoded decoded;
            LogPrincipal (Some stored)])
      end
  end.
Proof.
  intros Hb. unfold verifyRefreshToken_with. rewrite Hb.
  destruct (jwt_verify tok (REFRESH_TOKEN_SECRET env) now) as [decoded|e];
    [|done].
  pose proof (findById_quiet coll (decoded !! "_id")) as Hq.
  simpl. unfold mbind, M_bind; simpl.
  destruct (findById coll (decoded !! "_id")) as [[[stored|]|x] out];
    simpl in *; subst; try done.
  by destruct (bool_decide (refreshToken stored = Some tok)).
Qed.



Lemma verifyJWT_with_outcomes text env coll now req :
  (∃ p, fst (verifyJWT_with text env coll now req) = Ok p)
  ∨ (bearer_token req = None
     ∧ verifyJWT_with text env coll now req = (Err (ExApi access_missing), []))
  ∨ (bearer_token req ≠ None
     ∧ fst (verifyJWT_with text env coll now req) = Err (ExApi access_invalid)).
Proof.
  destruct (bearer_token req) as [tok|] eqn:Hb.
  2:{ right; left. split; [done|]. unfold verifyJWT_with. by rewrite Hb. }
  rewrite (verifyJWT_with_run _ _ _ _ _ tok Hb).
  destruct (jwt_verify tok (ACCESS_TOKEN_SECRET env) now) as [decoded|e];
    [|by right; right].
  destruct (fst (findById coll (decoded !! "_id"))) as [[stored|]|x];
    [left; by eexists|by right; right..].
Qed.



End GateRuns.



Section GateProperties.
Context `{Mongoose}.


(** X2.  An access-token gate that does not let a request through throws
    an [ApiError] of status 401 and nothing else: "Access token missing",
    with nothing written to the console, when no bearer token can be read
    from the header, and "Invalid or expired access token" in every other
    case. *)
Theorem access_gates_fail_with_401 env coll now req :
  ((∃ p, fst (adminverifyJWT env coll now req) = Ok p)
   ∨ (bearer_token req = None
      ∧ adminverifyJWT env coll now req = (Err (ExApi access_missing), []))
   ∨ (bearer_token req ≠ None
      ∧ fst (adminverifyJWT env coll now req) = Err (ExApi access_invalid)))
  ∧ ((∃ p, fst (userverifyJWT env coll now req) = Ok p)
     ∨ (bearer_token req = None
        ∧ userverifyJWT env coll now req = (Err (ExApi access_missing), []))
     ∨ (bearer_token req ≠ None
        ∧ fst (userverifyJWT env coll now req) = Err (ExApi access_invalid))).
Proof. split; apply verifyJWT_with_outcomes. Qed.

(** X3.  Whenever a request carries a bearer token, valid or not, the
    first thing an access-token gate writes to the console is the access
    secret itself. *)
Theorem access_gates_log_the_secret env coll now req tok :
  bearer_token req = Some tok →
  head (snd (adminverifyJWT env coll now req))
  = Some (LogSecret (ACCESS_TOKEN_SECRET env))
  ∧ head (snd (userverifyJWT env coll now req))
    = Some (LogSecret (ACCESS_TOKEN_SECRET env)).
Proof.
  intros Hb. unfold adminverifyJWT, userverifyJWT.
  rewrite !(verifyJWT_with_run _ _ _ _ _ tok Hb).
  destruct (jwt_verify tok (ACCESS_TOKEN_SECRET env) now) as [decoded|e];
    [|done].
  by destruct (fst (findById coll (decoded !! "_id"))) as [[stored|]|x].
Qed.

(** X4.  An access token issued by [generateAccessToken] is refused by
    the user gate and by the admin gate, with 401, at every time and
    whatever the collection holds, the very user included: the token
    names its user under [id] and the gates look under [_id]. *)
Theorem issued_access_token_is_refused env user issued tok coll now :
  generateAccessToken env user issued = Ok tok →
  fst (userverifyJWT env coll now (bearer tok)) = Err (ExApi access_invalid)
  ∧ fst (adminverifyJWT env coll now (bearer tok))
    = Err (ExApi access_invalid).
Proof.
  intros Hgen. destruct (issued_token_decodes env user issued tok Hgen)
    as [Hkey _].
  unfold adminverifyJWT, userverifyJWT.
  rewrite !(verifyJWT_with_run _ _ _ _ (bearer tok) tok eq_refl).
  destruct (jwt_verify tok (ACCESS_TOKEN_SECRET env) now) as [decoded|e] eqn:Hv;
    [|done].
  destruct (Hkey _ _ _ Hv) as (_ & _ & Hfind). by rewrite Hfind.
Qed.




(** X8.  A refresh token issued by [generateRefreshToken] is refused by
    the refresh gate of the user middleware, with 401, at every time and
    whatever the collection holds, also when it is the token stored for
    its user: the token names its user under [id] and the gate looks
    under [_id]. *)
Theorem issued_refresh_token_is_refused env user issued tok coll now req :
  generateRefreshToken env user issued = Ok tok →
  presented_refresh_token req = Some tok →
  fst (verifyRefreshToken env coll now req) = Err (ExApi refresh_invalid).
Proof.
  intros (k & _ & ->)%jwt_sign_inv Hp.
  unfold verifyRefreshToken.
  rewrite (verifyRefreshToken_with_run _ _ _ _ _ Hp).
  destruct (jwt_verify _ (REFRESH_TOKEN_SECRET env) now) as [decoded|e] eqn:Hv;
    [|done].
  apply jwt_verify_payload in Hv as (key & [= <- _] & _).
  assert (stamped (<["id" := VStr (_id user)]> ∅) issued
            (default thirty_days (REFRESH_TOKEN_EXPIRY env)) !! "_id" = None)
    as -> by (unfold stamped; by simplify_map_eq).
  done.
Qed.

End GateProperties.


(** X2 at a request without header. *)
Lemma access_gates_fail_with_401_witness :
  @adminverifyJWT hex_ids sample_env [root] 2000 (mkRequest None None None)
  = (Err (ExApi access_missing), []).
Proof.
  destruct (@access_gates_fail_with_401 hex_ids sample_env [root] 2000
              (mkRequest None None None)) as [[[p Hp]|[[_ Hm]|[Hno _]]] _].
  - discriminate Hp.
  - exact Hm.
  - by destruct Hno.
Defined.

(** X3 at a token that does not verify. *)
Lemma access_gates_log_the_secret_witness :
  head (snd (@adminverifyJWT hex_ids sample_env [root] 2000
               (bearer (Malformed "junk"))))
  = Some (LogSecret (Some "access-secret")).
Proof.
  apply (@access_gates_log_the_secret hex_ids sample_env [root] 2000
           (bearer (Malformed "junk")) (Malformed "junk")).
  reflexivity.
Defined.

(** X4 at [alice], stored, with her own unexpired token. *)
Lemma issued_access_token_is_refused_witness :
  fst (@userverifyJWT hex_ids sample_env [alice] 2000 (bearer alice_token))
  = Err (ExApi access_invalid).
Proof.
  apply (@issued_access_token_is_refused hex_ids sample_env alice 1000
           alice_token [alice] 2000).
  reflexivity.
Defined.




(** X8 at [bob], whose stored refresh token is the one presented. *)
Lemma issued_refresh_token_is_refused_witness :
  generateRefreshToken sample_env bob 1000 = Ok bob_refresh
  ∧ refreshToken bob = Some bob_refresh
  ∧ fst (@verifyRefreshToken hex_ids sample_env [bob] 2000
           (with_cookie bob_refresh))
    = Err (ExApi refresh_invalid).
Proof.
  split; [reflexivity|]. split; [reflexivity|].
  apply (@issued_refresh_token_is_refused hex_ids sample_env bob 1000
           bob_refresh [bob] 2000 (with_cookie bob_refresh));
    reflexivity.
Defined.

(** ** Creating a coupon, further *)

Lemma validate_Err_all `{JoiLib} sch (obj : gmap string value) details :
  validate sch obj false = Err details →
  details = (key_errors (keys sch) obj ++ unknown_errors sch obj)%list
  ∧ details ≠ [].
Proof.
  unfold validate.
  destruct (key_errors (keys sch) obj ++ unknown_errors sch obj)%list
    as [|d ds]; [done|].
  by intros [= <-].
Qed.

Lemma validate_Err_intro `{JoiLib} sch (obj : gmap string value) d :
  d ∈ (key_errors (keys sch) obj ++ unknown_errors sch obj)%list →
  ∃ details, validate sch obj false = Err details ∧ d ∈ details.
Proof.
  unfold validate.
  destruct (key_errors (keys sch) obj ++ unknown_errors sch obj)%list
    as [|d0 ds]; [by intros ?%elem_of_nil|].
  intros Hd. by eexists.
Qed.

Lemma assign_lookup (k k' : string) (v : option value)
    (obj : gmap string value) :
  assign k v obj !! k' = if decide (k = k') then v else obj !! k'.
Proof.
  unfold assign. destruct v, (decide (k = k')) as [->|Hne].
  - by rewrite lookup_insert_eq.
  - by rewrite lookup_insert_ne.
  - by rewrite lookup_delete_eq.
  - by rewrite lookup_delete_ne.
Qed.

Lemma save_new_lookups fresh now (doc : gmap string value) k :
  k ≠ "_id" → k ≠ "createdAt" → save_new fresh now doc !! k = doc !! k.
Proof. intros. unfold save_new. by rewrite !lookup_insert_ne. Qed.

Section CreateMore.
Context `{JoiLib}.

(** The three ways [createCoupon] ends. *)
Lemma createCoupon_cases now fresh req (s : list (gmap string value)) :
  (venture req = None
   ∧ createCoupon now fresh req s
     = (Err (TypeError "Cannot read properties of undefined"), s))
  ∨ (∃ ventureId details,
       venture req = Some ventureId
       ∧ validate couponSchema (formData_of req (logoUrl_of req) ventureId)
                  false = Err details
       ∧ createCoupon now fresh req s
         = (Err (Api (mkApiError 400 "Validation error"
                                 (Violation <$> details))), s))
  ∨ (∃ ventureId validated,
       venture req = Some ventureId
       ∧ validate couponSchema (formData_of req (logoUrl_of req) ventureId)
                  false = Ok validated
       ∧ createCoupon now fresh req s
         = (Ok (mkResponse 201 (save_new fresh now (Coupon_new validated))
                           "Coupon created successfully"),
            (s ++ [save_new fresh now (Coupon_new validated)])%list)).
Proof.
  unfold createCoupon. destruct (venture req) as [ventureId|]; [|by left].
  destruct (validate couponSchema _ false) as [validated|details] eqn:Hval.
  - right; right. by exists ventureId, validated.
  - right; left. by exists ventureId, details.
Qed.



Lemma formData_of_body_irrelevant req b' logoUrl ventureId :
  (∀ k, k ≠ "logo" → k ≠ "createdBy" → body req !! k = b' !! k) →
  formData_of (with_body b' req) logoUrl ventureId
  = formData_of req logoUrl ventureId.
Proof.
  intros Hb. apply map_eq. intros k. unfold formData_of.
  rewrite !assign_lookup.
  destruct (decide ("createdBy" = k)); [done|].
  destruct (decide ("logo" = k)); [done|].
  simpl. symmetry. by apply Hb.
Qed.

(** X10.  The creator and the logo of a new coupon cannot be chosen in
    the request body: two requests that differ only in the [createdBy]
    and [logo] fields of their bodies are treated alike by
    [createCoupon]. *)
Theorem createCoupon_ignores_body_creator_and_logo now fresh req b'
    (s : list (gmap string value)) :
  (∀ k, k ≠ "logo" → k ≠ "createdBy" → body req !! k = b' !! k) →
  createCoupon now fresh (with_body b' req) s = createCoupon now fresh req s.
Proof.
  intros Hb. unfold createCoupon.
  change (venture (with_body b' req)) with (venture req).
  change (logoUrl_of (with_body b' req)) with (logoUrl_of req).
  destruct (venture req) as [ventureId|]; [|done].
  by rewrite formData_of_body_irrelevant.
Qed.

(** X11.  When a file was uploaded and its [path] is not a URI, as for a
    file kept on the local disk, [createCoupon] fails with status 400
    and the message of [logo] being no valid URI, and stores nothing. *)
Theorem createCoupon_rejects_upload_path now fresh req ventureId f p
    (s : list (gmap string value)) :
  venture req = Some ventureId →
  file req = Some f →
  truthy_string (file_path f) = Some p →
  is_uri p = false →
  ∃ details,
    createCoupon now fresh req s
    = (Err (Api (mkApiError 400 "Validation error" (Violation <$> details))),
       s)
    ∧ {| path := "logo"; code := string_uri |} ∈ details.
Proof.
  intros Hv Hf Hp Huri.
  set (formData := formData_of req (logoUrl_of req) ventureId).
  set (sl := Joi_string |> uri |> optional |> allow [VNull; VStr ""]).
  assert (Hlogo : formData !! "logo" = Some (VStr p)).
  { unfold formData, formData_of, logoUrl_of, uploaded.
    rewrite Hf, Hp. rewrite assign_lookup_ne by done.
    unfold assign. by rewrite lookup_insert_eq. }
  apply truthy_string_Some in Hp as [_ Hne].
  assert (Hin : {| path := "logo"; code := string_uri |}
                ∈ key_errors (keys couponSchema) formData).
  { apply (key_errors_elem _ _ "logo" sl); [in_list|].
    rewrite Hlogo. unfold validate_value.
    assert (coerce sl (VStr p) = VStr p) as -> by reflexivity.
    rewrite bool_decide_eq_false_2.
    2:{ unfold sl; simpl. rewrite !elem_of_cons, elem_of_nil.
        intros [?|[[= ?]|[]]]; done. }
    assert (check_base sl (VStr p) = None) as ->.
    { unfold check_base, sl; simpl. by rewrite bool_decide_eq_false_2. }
    unfold sl; simpl. rewrite Huri. apply elem_of_cons; by left. }
  exists (key_errors (keys couponSchema) formData). split; [|done].
  apply createCoupon_invalid; [done|].
  intros Hnil. fold formData in Hnil. rewrite Hnil in Hin.
  by apply elem_of_nil in Hin.
Qed.

End CreateMore.


(** X10 at a body that names another creator and a logo. *)
Lemma createCoupon_ignores_body_creator_and_logo_witness :
  @createCoupon decimal_joi 5000 coupon_id
    (with_body spoofing_body diwali_form) []
  = @createCoupon decimal_joi 5000 coupon_id diwali_form [].
Proof.
  apply (@createCoupon_ignores_body_creator_and_logo decimal_joi).
  intros k Hl Hc. unfold spoofing_body. simpl.
  by rewrite !lookup_insert_ne.
Defined.

(** X11 at a file kept under [uploads/]. *)
Lemma createCoupon_rejects_upload_path_witness :
  ∃ details,
    @createCoupon decimal_joi 5000 coupon_id disk_upload_form []
    = (Err (Api (mkApiError 400 "Validation error" (Violation <$> details))),
       [])
    ∧ {| path := "logo"; code := string_uri |} ∈ details.
Proof.
  apply (@createCoupon_rejects_upload_path decimal_joi 5000 coupon_id
           disk_upload_form sample_venture
           (mkFile (Some "uploads/logo.png") None) "uploads/logo.png");
    reflexivity.
Defined.

(** ** Trimming *)

Lemma list_ascii_of_string_app (s1 s2 : string) :
  list_ascii_of_string (s1 ++ s2)
  = (list_ascii_of_string s1 ++ list_ascii_of_string s2)%list.
Proof. induction s1 as [|a s1 IH]; simpl; [done|by rewrite IH]. Qed.

Lemma string_of_list_ascii_app (l1 l2 : list ascii) :
  string_of_list_ascii (l1 ++ l2)
  = (string_of_list_ascii l1 ++ string_of_list_ascii l2)%string.
Proof. induction l1 as [|a l1 IH]; simpl; [done|by rewrite IH]. Qed.

Lemma string_rev_involutive (s : string) : string_rev (string_rev s) = s.
Proof.
  unfold string_rev.
  by rewrite list_ascii_of_string_of_list_ascii, rev_involutive,
    string_of_list_ascii_of_string.
Qed.

Lemma string_rev_cons (a : ascii) (s : string) :
  string_rev (String a s) = (string_rev s ++ String a "")%string.
Proof. unfold string_rev. simpl. by rewrite string_of_list_ascii_app. Qed.

Lemma string_rev_snoc (s : string) (a : ascii) :
  string_rev (s ++ String a "") = String a (string_rev s).
Proof.
  unfold string_rev. rewrite list_ascii_of_string_app. simpl.
  by rewrite rev_app_distr.
Qed.

Lemma trim_start_length (s : string) :
  (String.length (trim_start s) ≤ String.length s)%nat.
Proof.
  induction s as [|a s IH]; simpl; [done|].
  destruct (is_space a); simpl; lia.
Qed.

Lemma trim_start_fixed (a : ascii) (s : string) :
  trim_start (String a s) = String a s → is_space a = false.
Proof.
  simpl. destruct (is_space a); [|done]. intros Heq.
  pose proof (trim_start_length s) as Hl. rewrite Heq in Hl. simpl in Hl. lia.
Qed.

Lemma trim_start_idem (s : string) :
  trim_start (trim_start s) = trim_start s.
Proof.
  induction s as [|a s IH]; simpl; [done|].
  destruct (is_space a) eqn:Ha; [done|]. simpl. by rewrite Ha.
Qed.

Lemma trim_start_snoc (u : string) (c : ascii) :
  is_space c = false →
  trim_start (u ++ String c "") = (trim_start u ++ String c "")%string.
Proof.
  intros Hc. induction u as [|a u IH]; simpl; [by rewrite Hc|].
  by destruct (is_space a).
Qed.

(** Cutting the white space off the end leaves the beginning clean. *)
Lemma trim_end_keeps_start (t : string) :
  trim_start t = t →
  trim_start (string_rev (trim_start (string_rev t)))
  = string_rev (trim_start (string_rev t)).
Proof.
  destruct t as [|c t]; [done|]. intros Hc%trim_start_fixed.
  rewrite string_rev_cons, trim_start_snoc, string_rev_snoc by done.
  simpl. by rewrite Hc.
Qed.

(** Trimming a trimmed string changes nothing. *)
Lemma string_trim_idem (s : string) :
  string_trim (string_trim s) = string_trim s.
Proof.
  unfold string_trim.
  rewrite (trim_end_keeps_start (trim_start s)) by apply trim_start_idem.
  by rewrite string_rev_involutive, trim_start_idem.
Qed.

(** ** What a stored coupon holds *)

Section StoredFacts.
Context `{JoiLib}.

Lemma key_errors_nil_elem ks (obj : gmap string value) k s :
  key_errors ks obj = [] →
  (k, s) ∈ ks →
  (validate_value s (obj !! k)).2 = [].
Proof.
  intros Hnil Hin.
  destruct (validate_value s (obj !! k)).2 as [|c cs] eqn:Hc; [done|].
  assert ({| path := k; code := c |} ∈ key_errors ks obj) as Hd.
  { apply (key_errors_elem _ _ k s); [done|]. rewrite Hc.
    apply elem_of_cons; by left. }
  rewrite Hnil in Hd. by apply elem_of_nil in Hd.
Qed.

(** A validated object, key by key. *)
Lemma validated_key sch (obj validated : gmap string value) k s :
  NoDup (keys sch).*1 →
  validate sch obj false = Ok validated →
  (k, s) ∈ keys sch →
  (validate_value s (obj !! k)).2 = []
  ∧ validated !! k = match (validate_value s (obj !! k)).1 with
                     | Some v => Some v
                     | None => obj !! k
                     end.
Proof.
  intros Hnd (-> & Hk & _)%validate_Ok_inv Hin. split.
  - by eapply key_errors_nil_elem.
  - unfold converted. by apply convert_lookup_in.
Qed.

Lemma required_text_accepted (v : option value) :
  (validate_value (Joi_string |> trim |> required) v).2 = [] →
  ∃ x, (validate_value (Joi_string |> trim |> required) v).1
       = Some (VStr (string_trim x))
       ∧ string_trim x ≠ "".
Proof.
  destruct v as [[| | |x|]|]; try done.
  unfold validate_value; simpl.
  assert (coerce (Joi_string |> trim |> required) (VStr x)
          = VStr (string_trim x)) as -> by reflexivity.
  assert (check_base (Joi_string |> trim |> required) (VStr (string_trim x))
          = if bool_decide (string_trim x = "") then Some string_empty
            else None) as ->.
  { unfold check_base; simpl. by destruct (bool_decide _). }
  destruct (bool_decide (string_trim x = "")) eqn:He; [done|].
  apply bool_decide_eq_false in He. intros _. by exists x.
Qed.

Lemma required_date_accepted (v : option value) :
  (validate_value (Joi_date |> required) v).2 = [] →
  ∃ t, (validate_value (Joi_date |> required) v).1 = Some (VDate t).
Proof.
  destruct v as [v|]; [|done]. unfold validate_value.
  set (sch := Joi_date |> required).
  assert (bool_decide (coerce sch v ∈ valids sch) = false) as ->.
  { apply bool_decide_eq_false_2, not_elem_of_nil. }
  destruct (check_base sch (coerce sch v)) as [c|] eqn:Hb; [done|].
  unfold check_base in Hb. simpl in Hb.
  destruct (coerce sch v) as [| | | |t]; try done. intros _. by exists t.
Qed.

Lemma percentage_accepted (v : option value) :
  (validate_value (Joi_number |> min 0 |> max 100 |> optional) v).2 = [] →
  (v = None
   ∧ (validate_value (Joi_number |> min 0 |> max 100 |> optional) v).1 = None)
  ∨ ∃ q, (validate_value (Joi_number |> min 0 |> max 100 |> optional) v).1
         = Some (VNum q)
         ∧ (0 <= q)%Q ∧ (q <= 100)%Q.
Proof.
  destruct v as [v|]; [|by left]. intros Herr. right. revert Herr.
  unfold validate_value.
  set (sch := Joi_number |> min 0 |> max 100 |> optional).
  assert (bool_decide (coerce sch v ∈ valids sch) = false) as ->.
  { apply bool_decide_eq_false_2, not_elem_of_nil. }
  destruct (check_base sch (coerce sch v)) as [c|] eqn:Hb; [done|].
  unfold check_base in Hb. simpl in Hb.
  destruct (coerce sch v) as [| |q| |]; try done.
  unfold sch; simpl.
  destruct (Qlt_bool q 0) eqn:Hlo; [done|].
  destruct (Qlt_bool 100 q) eqn:Hhi; [done|]. intros _.
  exists q. split; [done|].
  unfold Qlt_bool in *. apply negb_false_iff in Hlo, Hhi.
  by apply Qle_bool_iff in Hlo, Hhi.
Qed.

Lemma new_coupon_lookup fresh now (validated : gmap string value) k v :
  k ∈ Coupon_paths →
  validated !! k = Some v →
  save_new fresh now (Coupon_new validated) !! k = Some v.
Proof.
  intros Hk Hv. rewrite save_new_lookups.
  - unfold Coupon_new. apply lookup_union_Some_l.
    by rewrite strict_lookup_in.
  - intros ->. revert Hk. apply (bool_decide_unpack _). by vm_compute.
  - intros ->. revert Hk. apply (bool_decide_unpack _). by vm_compute.
Qed.

(** The fields of the record [createCoupon] stores. *)
Lemma createCoupon_stored now fresh req (s : list (gmap string value))
    resp s' :
  createCoupon now fresh req s = (Ok resp, s') →
  (∀ k, k ∈ required_texts →
     ∃ t, data resp !! k = Some (VStr t) ∧ t ≠ "" ∧ string_trim t = t)
  ∧ (∃ t, data resp !! "expiryDate" = Some (VDate t))
  ∧ percentage_in_range (data resp)
  ∧ (∃ ventureId, venture req = Some ventureId
                  ∧ data resp !! "createdBy" = Some (VStr ventureId)).
Proof.
  intros Hc.
  destruct (createCoupon_cases now fresh req s)
    as [[_ Hr]|[(v & details & _ & _ & Hr)|(v & validated & Hv & Hval & Hr)]];
    rewrite Hr in Hc; try done.
  injection Hc as <- <-. simpl.
  pose proof (fun k s => validated_key couponSchema _ validated k s
                           couponSchema_NoDup Hval) as Hkey.
  split; [|split; [|split]].
  - intros k Hk.
    destruct (Hkey k (Joi_string |> trim |> required)) as [Herr Hval'].
    { unfold required_texts in Hk. rewrite !elem_of_cons, elem_of_nil in Hk.
      destruct Hk as [->|[->|[->|[->|[]]]]]; in_list. }
    apply required_text_accepted in Herr as (x & Hx & Hne).
    rewrite Hx in Hval'. exists (string_trim x).
    split; [|split; [done|apply string_trim_idem]].
    apply new_coupon_lookup; [|done].
    unfold required_texts in Hk. rewrite !elem_of_cons, elem_of_nil in Hk.
    destruct Hk as [->|[->|[->|[->|[]]]]]; in_list.
  - destruct (Hkey "expiryDate" (Joi_date |> required)) as [Herr Hval'];
      [in_list|].
    apply required_date_accepted in Herr as (t & Ht).
    rewrite Ht in Hval'. exists t. apply new_coupon_lookup; [in_list|done].
  - destruct (Hkey "claimPercentage"
                (Joi_number |> min 0 |> max 100 |> optional))
      as [Herr Hval']; [in_list|].
    unfold percentage_in_range.
    apply percentage_accepted in Herr as [[Hnone Hfst]|(q & Hq & Hlo & Hhi)].
    + rewrite Hfst, Hnone in Hval'.
      rewrite save_new_lookups by done. unfold Coupon_new.
      assert ((strict validated ∪ Coupon_defaults) !! "claimPercentage" = None)
        as ->; [|done].
      apply lookup_union_None. split; [by apply strict_lookup_None|done].
    + rewrite Hq in Hval'.
      by rewrite (new_coupon_lookup _ _ _ _ (VNum q)); [|in_list|].
  - exists v. split; [done|].
    destruct (Hkey "createdBy" (Joi_string |> optional)) as [_ Hval'];
      [in_list|].
    apply new_coupon_lookup; [in_list|]. rewrite Hval'.
    unfold formData_of. rewrite assign_lookup, decide_True by done.
    by rewrite validate_value_fst.
Qed.

(** X12.  The record a successful [createCoupon] stores has its four
    required text fields trimmed and not empty, its expiry date stored
    as a date, and its claim percentage either absent or a number
    between 0 and 100. *)
Theorem createCoupon_stores_normal_form now fresh req
    (s : list (gmap string value)) resp s' :
  createCoupon now fresh req s = (Ok resp, s') →
  (∀ k, k ∈ required_texts →
     ∃ t, data resp !! k = Some (VStr t) ∧ t ≠ "" ∧ string_trim t = t)
  ∧ (∃ t, data resp !! "expiryDate" = Some (VDate t))
  ∧ percentage_in_range (data resp).
Proof.
  intros Hc. destruct (createCoupon_stored _ _ _ _ _ _ Hc)
    as (Ht & Hd & Hp & _). done.
Qed.

End StoredFacts.

(** X12 at the padded form: the title is stored without the white space
    around it. *)
Lemma createCoupon_stores_normal_form_witness :
  ∃ resp s',
    @createCoupon decimal_joi 5000 coupon_id padded_form [] = (Ok resp, s')
    ∧ data resp !! "couponTitle" = Some (VStr "Diwali Sale")
    ∧ percentage_in_range (data resp).
Proof.
  destruct (@createCoupon decimal_joi 5000 coupon_id padded_form [])
    as [[resp|e] s'] eqn:Hc.
  - exists resp, s'. split; [reflexivity|].
    destruct (@createCoupon_stores_normal_form decimal_joi 5000 coupon_id
                padded_form [] resp s' Hc) as (_ & _ & Hp).
    split; [|exact Hp].
    assert (Ht : answered_field "couponTitle"
                   (@createCoupon decimal_joi 5000 coupon_id padded_form []).1
                 = Some (VStr "Diwali Sale")) by (by vm_compute).
    rewrite Hc in Ht. exact Ht.
  - assert (Ha : answered (@createCoupon decimal_joi 5000 coupon_id
                             padded_form []).1 = true) by (by vm_compute).
    rewrite Hc in Ha. discriminate Ha.
Defined.

(** ** Invariants of the collection *)

Section CollectionInvariants.
Context `{JoiLib} `{Mongoose}.

(** What [editCouponSchema] lets through has none of the keys it does
    not declare. *)
Lemma edit_value_lookup_out (obj validated : gmap string value) k :
  validate editCouponSchema obj false = Ok validated →
  k ∉ (keys editCouponSchema).*1 →
  validated !! k = None.
Proof.
  intros (-> & _ & Hu)%validate_Ok_inv Hk.
  unfold converted. rewrite convert_lookup_out by done.
  by apply (no_unknown_key editCouponSchema).
Qed.

Lemma editCouponSchema_NoDup : NoDup (keys editCouponSchema).*1.
Proof. apply (bool_decide_unpack _). by vm_compute. Qed.

Lemma optional_date_accepted (v : option value) :
  (validate_value (Joi_date |> optional) v).2 = [] →
  (v = None ∧ (validate_value (Joi_date |> optional) v).1 = None)
  ∨ ∃ t, (validate_value (Joi_date |> optional) v).1 = Some (VDate t).
Proof.
  destruct v as [v|]; [|by left]. intros Herr. right. revert Herr.
  unfold validate_value.
  set (sch := Joi_date |> optional).
  assert (bool_decide (coerce sch v ∈ valids sch) = false) as ->.
  { apply bool_decide_eq_false_2, not_elem_of_nil. }
  destruct (check_base sch (coerce sch v)) as [c|] eqn:Hb; [done|].
  unfold check_base in Hb. simpl in Hb.
  destruct (coerce sch v) as [| | | |t]; try done. intros _. by exists t.
Qed.

(** The three ways [editCoupon] ends without an update, and the one with. *)
Lemma editCoupon_cases req (s : list (gmap string value)) r s' :
  editCoupon req s = (r, s') →
  (s' = s ∧ ∃ e, r = Err e)
  ∨ ∃ existing validated,
      Coupon_findById (params_id req) s = Ok (Some existing)
      ∧ validate editCouponSchema
          (assign "logo" (match file req with
                          | Some f => uploaded f
                          | None => existing !! "logo"
                          end) (body req)) false = Ok validated
      ∧ s' = update_by_id (params_id req) (fun d => strict validated ∪ d) s
      ∧ r = Ok (mkResponse 200
                  (List.find (has_string "_id" (params_id req)) s')
                  "Coupon updated successfully").
Proof.
  unfold editCoupon.
  destruct (Coupon_findById (params_id req) s) as [[existing|]|e] eqn:Hf;
    [|intros [= <- <-]; left; split; [done|by eexists]..].
  destruct (validate editCouponSchema _ false) as [validated|details] eqn:Hval;
    intros [= <- <-].
  - right. by exists existing, validated.
  - left. split; [done|by eexists].
Qed.

Lemma edit_keeps_well_kept (validated d : gmap string value) obj :
  validate editCouponSchema obj false = Ok validated →
  well_kept d → well_kept (strict validated ∪ d).
Proof.
  intros Hval (Hp & [v Hv] & [t Ht]).
  assert (Hout : ∀ k, k ∉ (keys editCouponSchema).*1 →
                      (strict validated ∪ d) !! k = d !! k).
  { intros k Hk. rewrite lookup_union_r; [done|].
    apply strict_lookup_None. by eapply edit_value_lookup_out. }
  split; [|split].
  - unfold percentage_in_range in *. rewrite Hout; [done|].
    apply (bool_decide_unpack _). by vm_compute.
  - exists v. rewrite Hout; [done|].
    apply (bool_decide_unpack _). by vm_compute.
  - destruct (validated_key editCouponSchema obj validated "expiryDate"
                (Joi_date |> optional) editCouponSchema_NoDup Hval)
      as [Herr Hlook]; [in_list|].
    apply optional_date_accepted in Herr as [[Hnone Hfst]|[t' Ht']].
    + rewrite Hfst, Hnone in Hlook. exists t.
      rewrite lookup_union_r; [done|]. by apply strict_lookup_None.
    + rewrite Ht' in Hlook. exists t'. apply lookup_union_Some_l.
      rewrite strict_lookup_in; [done|in_list].
Qed.

Lemma status_keeps_well_kept (d : gmap string value) st :
  well_kept d → well_kept (<["status" := st]> d).
Proof.
  intros (Hp & Hc & Hd). unfold well_kept, percentage_in_range in *.
  by rewrite !lookup_insert_ne.
Qed.

Lemma step_keeps_well_kept (s s' : list (gmap string value)) :
  step s s' → Forall well_kept s → Forall well_kept s'.
Proof.
  assert (Hstatus : ∀ new_status msg req r,
             Forall well_kept s →
             set_status_by_id new_status msg req s = (r, s') →
             Forall well_kept s').
  { intros new_status msg req r Hs. unfold set_status_by_id.
    destruct (Coupon_findById (params_id req) s) as [[coupon|]|e] eqn:Hf;
      [|by intros [= _ <-]..].
    intros [= _ <-]. eapply Forall2_preserves; [|exact Hs].
    apply update_by_id_Forall2; [done|]. intros d _ _ _.
    apply status_keeps_well_kept.
    unfold Coupon_findById in Hf. destruct (ObjectId_isValid _); [|done].
    injection Hf as Hf. apply find_some_elem in Hf as [Hin _].
    by eapply Forall_forall in Hs. }
  intros Hstep Hs. inversion Hstep as
    [now fresh req s0 r s0' Hc | req s0 r s0' He | now s0 r s0' Hd
    | req s0 r s0' Hr | req s0 r s0' Hr]; subst.
  - destruct r as [resp|e].
    + pose proof (createCoupon_stored _ _ _ _ _ _ Hc)
        as (_ & Hdate & Hp & (v & _ & Hby)).
      apply createCoupon_Ok_inv in Hc as (_ & _ & _ & _ & _ & ->).
      apply Forall_app. split; [done|]. constructor; [|done].
      split; [done|]. split; [by exists v|done].
    + destruct (createCoupon_cases now fresh req s)
        as [[_ Hr]|[(v & details & _ & _ & Hr)|(v & validated & _ & _ & Hr)]];
        rewrite Hr in Hc; by simplify_eq.
  - apply editCoupon_cases in He
      as [[-> _]|(existing & validated & _ & Hval & -> & _)]; [done|].
    eapply Forall2_preserves; [|exact Hs].
    apply update_by_id_Forall2; [done|]. intros d _ _.
    by eapply edit_keeps_well_kept.
  - injection Hd as _ <-. eapply Forall2_preserves; [|exact Hs].
    apply updateMany_Forall2; [done|]. intros d _. apply status_keeps_well_kept.
  - by eapply Hstatus.
  - by eapply Hstatus.
Qed.

(** X13.  Every coupon of every collection the controller can build
    (by creating, editing, listing with the sweep, rejecting and
    deleting) has a creator, an expiry date stored as a date, and a claim
    percentage that is absent or a number between 0 and 100. *)
Theorem reachable_coupons_are_well_kept (s : list (gmap string value)) :
  reachable s → Forall well_kept s.
Proof.
  unfold reachable. revert s.
  apply (rtc_ind_r (fun s => Forall well_kept s)); [constructor|].
  intros s1 s2 _ Hstep IH. by eapply step_keeps_well_kept.
Qed.

End CollectionInvariants.

(** X13 at the swept sample collection. *)
Lemma reachable_coupons_are_well_kept_witness :
  Forall well_kept (auto_expire 6000 after_create).
Proof.
  apply (@reachable_coupons_are_well_kept decimal_joi hex_ids).
  exact swept_sample_reachable.
Defined.

(** ** Updates by identifier *)


Lemma find_id_split id (s : list (gmap string value)) c :
  List.find (has_string "_id" id) s = Some c →
  ∃ l1 l2, s = (l1 ++ c :: l2)%list
           ∧ Forall (fun d => has_string "_id" id d = false) l1
           ∧ has_string "_id" id c = true.
Proof.
  induction s as [|d s IH]; [done|]. simpl.
  destruct (has_string "_id" id d) eqn:Hd.
  - intros [= ->]. by exists [], s.
  - intros (l1 & l2 & -> & Hl1 & Hc)%IH. exists (d :: l1), l2.
    split; [done|]. split; [by constructor|done].
Qed.

Lemma find_id_none id (s : list (gmap string value)) :
  List.find (has_string "_id" id) s = None →
  Forall (fun d => has_string "_id" id d = false) s.
Proof.
  induction s as [|d s IH]; [constructor|]. simpl.
  destruct (has_string "_id" id d) eqn:Hd; [done|]. intros Hs.
  constructor; [done|by apply IH].
Qed.

Lemma find_id_at id (l1 l2 : list (gmap string value)) c :
  Forall (fun d => has_string "_id" id d = false) l1 →
  has_string "_id" id c = true →
  List.find (has_string "_id" id) (l1 ++ c :: l2) = Some c.
Proof.
  intros Hl1 Hc. induction Hl1 as [|d l1 Hd _ IH]; simpl.
  - by rewrite Hc.
  - by rewrite Hd.
Qed.

Lemma update_by_id_at id set (l1 l2 : list (gmap string value)) c :
  Forall (fun d => has_string "_id" id d = false) l1 →
  has_string "_id" id c = true →
  update_by_id id set (l1 ++ c :: l2) = (l1 ++ set c :: l2)%list.
Proof.
  intros Hl1 Hc. induction Hl1 as [|d l1 Hd _ IH]; simpl.
  - by rewrite Hc.
  - by rewrite Hd, IH.
Qed.

Lemma has_id_insert_status id st (d : gmap string value) :
  has_string "_id" id (<["status" := st]> d) = has_string "_id" id d.
Proof. unfold has_string. by rewrite lookup_insert_ne. Qed.

Section UpdateProperties.
Context `{JoiLib} `{Mongoose}.


(** X15.  An edit whose body has a key that [editCouponSchema] does not
    declare, such as [status] or [claimPercentage], is refused with
    status 400 "Validation failed" and a message that the key is not
    allowed, and the collection is unchanged. *)
Theorem editCoupon_rejects_unknown_key req (s : list (gmap string value))
    existing k v :
  Coupon_findById (params_id req) s = Ok (Some existing) →
  k ∉ (keys editCouponSchema).*1 →
  body req !! k = Some v →
  ∃ details,
    editCoupon req s
    = (Err (Api (mkApiError 400 "Validation failed" (Violation <$> details))),
       s)
    ∧ {| path := k; code := any_unknown |} ∈ details.
Proof.
  intros Hf Hk Hv. unfold editCoupon. rewrite Hf.
  set (updatedData := assign "logo" _ (body req)).
  assert (Hup : updatedData !! k = Some v).
  { unfold updatedData. rewrite assign_lookup_ne; [done|].
    intros <-. apply Hk. apply (bool_decide_unpack _). by vm_compute. }
  destruct (validate_Err_intro editCouponSchema updatedData
              {| path := k; code := any_unknown |}) as (details & -> & Hd).
  - apply elem_of_app. right. unfold unknown_errors; simpl.
    apply list_elem_of_fmap. exists k. split; [done|].
    apply list_elem_of_In, filter_In. split.
    + apply list_elem_of_In, list_elem_of_fmap. exists (k, v).
      split; [done|]. by apply elem_of_map_to_list.
    + by rewrite bool_decide_eq_false_2.
  - by exists details.
Qed.

(** A change of status made after another on the same request. *)
Lemma set_status_twice st1 st2 msg1 msg2 req (s : list (gmap string value)) :
  set_status_by_id st2 msg2 req (set_status_by_id st1 msg1 req s).2
  = set_status_by_id st2 msg2 req s.
Proof.
  unfold set_status_by_id, Coupon_findById.
  destruct (ObjectId_isValid (params_id req)) eqn:Hid; [|by rewrite ?Hid].
  destruct (List.find (has_string "_id" (params_id req)) s) as [c|] eqn:Hf.
  2:{ simpl. by rewrite Hf. }
  simpl. apply find_id_split in Hf as (l1 & l2 & -> & Hl1 & Hc).
  rewrite !update_by_id_at by done.
  rewrite find_id_at; [|done|by rewrite has_id_insert_status].
  rewrite update_by_id_at; [|done|by rewrite has_id_insert_status].
  by rewrite insert_insert_eq.
Qed.



(** X17.  Neither of the two terminal statuses protects a coupon from the
    other operation: rejecting a coupon that has been deleted gives what
    rejecting it at once would have given, and the other way round. *)
Theorem last_status_change_wins req (s : list (gmap string value)) :
  rejectCouponById req (deleteCouponById req s).2 = rejectCouponById req s
  ∧ deleteCouponById req (rejectCouponById req s).2 = deleteCouponById req s.
Proof. split; apply set_status_twice. Qed.

End UpdateProperties.

(** ** The sweep, composed *)

Lemma overdue_mono t t' (d : gmap string value) :
  t ≤ t' → overdue t d = true → overdue t' d = true.
Proof.
  unfold overdue, date_lte. intros Hle.
  destruct (d !! "expiryDate") as [[| | | |e]|]; try done.
  intros [He Ha]%andb_true_iff. rewrite Ha, andb_true_r.
  apply Z.leb_le in He. apply Z.leb_le. lia.
Qed.

Lemma sweep_twice_pointwise t1 t2 (d : gmap string value) :
  let f t d := if overdue t d then <["status" := VStr "expired"]> d else d in
  f t2 (f t1 d) = f (Z.max t1 t2) d.
Proof.
  simpl. destruct (overdue t1 d) eqn:H1.
  - rewrite overdue_after_sweep.
    by rewrite (overdue_mono t1 (Z.max t1 t2) d) by (done || lia).
  - destruct (Z.le_gt_cases t1 t2) as [Hle|Hgt].
    + by rewrite Z.max_r.
    + rewrite Z.max_l by lia. rewrite H1.
      destruct (overdue t2 d) eqn:H2; [|done].
      rewrite (overdue_mono t2 t1 d) in H1; [done|lia|done].
Qed.

(** X18.  Two sweeps one after the other amount to one sweep at the
    later of the two times; in particular a sweep repeated at the same
    time changes nothing. *)
Theorem sweeps_compose t1 t2 (s : list (gmap string value)) :
  auto_expire t2 (auto_expire t1 s) = auto_expire (Z.max t1 t2) s
  ∧ auto_expire t1 (auto_expire t1 s) = auto_expire t1 s.
Proof.
  assert (Hgen : ∀ a b, auto_expire b (auto_expire a s)
                        = auto_expire (Z.max a b) s).
  { intros a b. unfold auto_expire, updateMany.
    rewrite <- list_fmap_compose. apply list_fmap_ext.
    intros _ d _. simpl. apply (sweep_twice_pointwise a b d). }
  split; [apply Hgen|]. rewrite Hgen. by rewrite Z.max_id.
Qed.

(** X19.  The unfiltered listing counts and returns every coupon of the
    collection, and asking again at the same time gives the same answer
    and leaves the collection as the first call left it. *)
Theorem displayCoupons_is_stable now (s : list (gmap string value)) :
  displayCoupons now (displayCoupons now s).2 = displayCoupons now s
  ∧ ∃ resp, (displayCoupons now s).1 = Ok resp
            ∧ couponCount (data resp) = length s
            ∧ all_coupons (data resp) ≡ₚ coupon_view <$> auto_expire now s.
Proof.
  split.
  - unfold displayCoupons. simpl.
    destruct (sweeps_compose now now s) as [_ ->]. done.
  - eexists. split; [reflexivity|]. simpl. split.
    + rewrite length_fmap, sort_desc_perm.
      unfold auto_expire, updateMany. by rewrite length_fmap.
    + by rewrite sort_desc_perm.
Qed.


(** X15 at an edit that tries to set the status. *)
Lemma editCoupon_rejects_unknown_key_witness :
  ∃ details,
    @editCoupon decimal_joi hex_ids status_patch_form [deleted_coupon]
    = (Err (Api (mkApiError 400 "Validation failed" (Violation <$> details))),
       [deleted_coupon])
    ∧ {| path := "status"; code := any_unknown |} ∈ details.
Proof.
  apply (@editCoupon_rejects_unknown_key decimal_joi hex_ids
           status_patch_form [deleted_coupon] deleted_coupon
           "status" (VStr "active")).
  - reflexivity.
  - apply (bool_decide_unpack _). by vm_compute.
  - reflexivity.
Defined.


(** X17 at the sample collection. *)
Lemma last_status_change_wins_witness :
  (@rejectCouponById hex_ids coupon_request
     (@deleteCouponById hex_ids coupon_request after_create).2).2
  = (@rejectCouponById hex_ids coupon_request after_create).2.
Proof.
  destruct (@last_status_change_wins hex_ids coupon_request after_create)
    as [-> _].
  reflexivity.
Defined.

(** ** Listings, further *)

Lemma key_ge_total (a b : option Z) : key_ge a b = true ∨ key_ge b a = true.
Proof.
  destruct a as [x|], b as [y|]; simpl; auto.
  destruct (Z.leb_spec y x); [by left|right]. apply Z.leb_le. lia.
Qed.

Lemma key_ge_trans (a b c : option Z) :
  key_ge a b = true → key_ge b c = true → key_ge a c = true.
Proof.
  destruct a as [x|], b as [y|], c as [z|]; simpl; try done.
  intros H1%Z.leb_le H2%Z.leb_le. apply Z.leb_le. lia.
Qed.

Lemma insert_desc_sorted field x (l : list (gmap string value)) :
  StronglySorted (newest_first field) l →
  StronglySorted (newest_first field) (insert_desc (date_field field) x l).
Proof.
  induction 1 as [|y l Hl IH Hy]; simpl.
  { repeat constructor. }
  destruct (key_ge (date_field field x) (date_field field y)) eqn:Hge.
  - constructor; [by constructor|]. constructor; [done|].
    eapply Forall_impl; [exact Hy|]. intros z Hz.
    unfold newest_first in *. by eapply key_ge_trans.
  - constructor; [done|]. rewrite insert_desc_perm. constructor; [|done].
    unfold newest_first.
    destruct (key_ge_total (date_field field x) (date_field field y));
      congruence.
Qed.

Lemma sort_desc_sorted field (l : list (gmap string value)) :
  StronglySorted (newest_first field) (sort_desc field l).
Proof.
  unfold sort_desc. induction l as [|x l IH]; simpl; [constructor|].
  by apply insert_desc_sorted.
Qed.

Lemma coupon_view_createdAt (d : gmap string value) :
  coupon_view d !! "createdAt" = d !! "createdAt".
Proof.
  unfold coupon_view. apply view_lookup_in.
  - apply (bool_decide_unpack _). by vm_compute.
  - rewrite !elem_of_cons; eauto 12.
Qed.

Lemma views_sorted (l : list (gmap string value)) :
  StronglySorted (newest_first "createdAt") l →
  StronglySorted (newest_first "createdAt") (coupon_view <$> l).
Proof.
  induction 1 as [|d l Hl IH Hd]; csimpl; constructor; [done|].
  apply Forall_fmap. eapply Forall_impl; [exact Hd|].
  intros b. simpl. unfold newest_first, date_field.
  by rewrite !coupon_view_createdAt.
Qed.

Lemma has_status_view wanted (d : gmap string value) :
  has_string "status" wanted (coupon_view d) = has_string "status" wanted d.
Proof. unfold has_string. by rewrite coupon_view_status. Qed.

Lemma display_by_status_exact wanted msg (s : list (gmap string value)) :
  ∃ resp,
    display_by_status wanted msg s = (Ok resp, s)
    ∧ count (data resp) = length (coupons (data resp))
    ∧ count (data resp) = length (List.filter (has_string "status" wanted) s)
    ∧ (∀ v, v ∈ coupons (data resp)
            ↔ ∃ d, d ∈ s ∧ has_string "status" wanted d = true
                   ∧ v = coupon_view d)
    ∧ Forall (fun v => has_string "status" wanted v = true)
             (coupons (data resp))
    ∧ StronglySorted (newest_first "createdAt") (coupons (data resp)).
Proof.
  eexists. split; [reflexivity|]. simpl. split; [done|]. split.
  { by rewrite length_fmap, sort_desc_perm. }
  assert (Hiff : ∀ v, v ∈ coupon_view <$>
                        sort_desc "createdAt"
                          (List.filter (has_string "status" wanted) s)
                      ↔ ∃ d, d ∈ s ∧ has_string "status" wanted d = true
                             ∧ v = coupon_view d).
  { intros v. rewrite list_elem_of_fmap. split.
    - intros (d & -> & Hd). rewrite sort_desc_perm in Hd.
      apply list_elem_of_In, filter_In in Hd as [Hd Hs].
      exists d. split; [by apply list_elem_of_In|done].
    - intros (d & Hd & Hs & ->). exists d. split; [done|].
      rewrite sort_desc_perm. apply list_elem_of_In, filter_In.
      split; [by apply list_elem_of_In|done]. }
  split; [exact Hiff|]. split.
  - apply Forall_forall. intros v (d & _ & Hs & ->)%Hiff.
    by rewrite has_status_view.
  - apply views_sorted, sort_desc_sorted.
Qed.

(** X20.  The listings of the coupon controller come newest first by
    creation time: the unfiltered listing and the three listings by
    status. *)
Theorem listings_are_newest_first now (s : list (gmap string value)) :
  (∃ resp, (displayCoupons now s).1 = Ok resp
           ∧ StronglySorted (newest_first "createdAt")
                            (all_coupons (data resp)))
  ∧ (∃ resp, (displayActiveCoupons s).1 = Ok resp
             ∧ StronglySorted (newest_first "createdAt")
                              (coupons (data resp)))
  ∧ (∃ resp, (displayExpiredCoupons s).1 = Ok resp
             ∧ StronglySorted (newest_first "createdAt")
                              (coupons (data resp)))
  ∧ (∃ resp, (displayDeletedCoupons s).1 = Ok resp
             ∧ StronglySorted (newest_first "createdAt")
                              (coupons (data resp))).
Proof.
  split.
  { eexists. split; [reflexivity|]. simpl. apply views_sorted, sort_desc_sorted. }
  split; [|split].
  - destruct (display_by_status_exact "active"
                "Active coupons fetched successfully." s)
      as (resp & Hr & _ & _ & _ & _ & Hs).
    exists resp. unfold displayActiveCoupons. by rewrite Hr.
  - destruct (display_by_status_exact "expired"
                "Expired coupons fetched successfully." s)
      as (resp & Hr & _ & _ & _ & _ & Hs).
    exists resp. unfold displayExpiredCoupons. by rewrite Hr.
  - destruct (display_by_status_exact "deleted"
                "Deleted coupons fetched successfully." s)
      as (resp & Hr & _ & _ & _ & _ & Hs).
    exists resp. unfold displayDeletedCoupons. by rewrite Hr.
Qed.

(** X21.  A listing by status changes nothing and returns exactly the
    coupons whose stored status is the one it asks for, each once, with
    their number: the active listing only active coupons, the expired
    listing only expired ones, the deleted listing only deleted ones. *)
Theorem status_listings_are_exact (s : list (gmap string value)) :
  (∃ resp,
     displayActiveCoupons s = (Ok resp, s)
     ∧ count (data resp) = length (coupons (data resp))
     ∧ count (data resp) = length (List.filter (has_string "status" "active") s)
     ∧ (∀ v, v ∈ coupons (data resp)
             ↔ ∃ d, d ∈ s ∧ has_string "status" "active" d = true
                    ∧ v = coupon_view d)
     ∧ Forall (fun v => has_string "status" "active" v = true)
              (coupons (data resp)))
  ∧ (∃ resp,
       displayExpiredCoupons s = (Ok resp, s)
       ∧ count (data resp) = length (coupons (data resp))
       ∧ count (data resp)
         = length (List.filter (has_string "status" "expired") s)
       ∧ (∀ v, v ∈ coupons (data resp)
               ↔ ∃ d, d ∈ s ∧ has_string "status" "expired" d = true
                      ∧ v = coupon_view d)
       ∧ Forall (fun v => has_string "status" "expired" v = true)
                (coupons (data resp)))
  ∧ (∃ resp,
       displayDeletedCoupons s = (Ok resp, s)
       ∧ count (data resp) = length (coupons (data resp))
       ∧ count (data resp)
         = length (List.filter (has_string "status" "deleted") s)
       ∧ (∀ v, v ∈ coupons (data resp)
               ↔ ∃ d, d ∈ s ∧ has_string "status" "deleted" d = true
                      ∧ v = coupon_view d)
       ∧ Forall (fun v => has_string "status" "deleted" v = true)
                (coupons (data resp))).
Proof.
  split; [|split].
  - destruct (display_by_status_exact "active"
                "Active coupons fetched successfully." s)
      as (resp & ? & ? & ? & ? & ? & _). by exists resp.
  - destruct (display_by_status_exact "expired"
                "Expired coupons fetched successfully." s)
      as (resp & ? & ? & ? & ? & ? & _). by exists resp.
  - destruct (display_by_status_exact "deleted"
                "Deleted coupons fetched successfully." s)
      as (resp & ? & ? & ? & ? & ? & _). by exists resp.
Qed.

(** ** The coupons of a venture *)

Lemma count_status_lookup st (acc : gmap string js_count)
    (d : gmap string value) n :
  acc !! st = Some (Count n) →
  count_status acc d !! st
  = Some (Count (if has_string "status" st d then S n else n)).
Proof.
  intros Hacc. unfold count_status, has_string.
  destruct (d !! "status") as [[| | |s0|]|]; try done.
  destruct (String.eqb_spec s0 st) as [->|Hne].
  - rewrite Hacc. by rewrite lookup_insert_eq.
  - destruct (acc !! s0) as [[m|]|]; [by rewrite lookup_insert_ne|done|].
    destruct (_ && _); [by rewrite lookup_insert_ne|done].
Qed.

Lemma count_status_fold st (l : list (gmap string value))
    (acc : gmap string js_count) n :
  acc !! st = Some (Count n) →
  foldl count_status acc l !! st
  = Some (Count (n + length (List.filter (has_string "status" st) l))).
Proof.
  revert acc n. induction l as [|d l IH]; intros acc n Hacc; simpl.
  { by rewrite Nat.add_0_r. }
  rewrite (IH _ _ (count_status_lookup st acc d n Hacc)).
  destruct (has_string "status" st d); simpl; do 2 f_equal; lia.
Qed.

Section VentureListing.
Context `{JoiLib} `{Mongoose}.

Lemma getVentureCouponsById_valid req (s : list (gmap string value)) v :
  venture req = Some v →
  ObjectId_isValid v = true →
  ∃ resp,
    getVentureCouponsById req s = Ok resp
    ∧ status resp = 200
    ∧ venture_coupons (data resp) ≡ₚ List.filter (has_string "createdBy" v) s
    ∧ total (data resp) = length (List.filter (has_string "createdBy" v) s)
    ∧ StronglySorted (newest_first "createdAt") (venture_coupons (data resp))
    ∧ ∀ st, st ∈ counted_statuses →
        statusCounts (data resp) !! st
        = Some (Count (length (List.filter (has_string "status" st)
                                           (venture_coupons (data resp))))).
Proof.
  intros Hv Hid. unfold getVentureCouponsById. rewrite Hv, Hid.
  eexists. split; [reflexivity|]. simpl. split; [done|].
  split; [apply sort_desc_perm|]. split; [by rewrite sort_desc_perm|].
  split; [apply sort_desc_sorted|].
  intros st Hst. rewrite (count_status_fold st _ _ 0); [done|].
  unfold counted_statuses in Hst. rewrite !elem_of_cons, elem_of_nil in Hst.
  destruct Hst as [->|[->|[->|[->|[->|[]]]]]]; reflexivity.
Qed.

(** X22.  [getVentureCouponsById] answers 400 "Invalid Venture ID" when
    the request has no venture or one whose identifier is not well
    formed.  Otherwise it returns exactly the coupons whose creator is
    the venture of the request, newest first, with their number, and for
    each of the statuses active, expired, deleted, rejected and claimed
    the number of returned coupons with that status.  The identifier in
    the path plays no part. *)
Theorem venture_listing_is_exact req (s : list (gmap string value)) :
  (venture req = None → getVentureCouponsById req s
                        = Err (Api (mkApiError 400 "Invalid Venture ID" [])))
  ∧ (∀ v, venture req = Some v → ObjectId_isValid v = false →
       getVentureCouponsById req s
       = Err (Api (mkApiError 400 "Invalid Venture ID" [])))
  ∧ (∀ v, venture req = Some v → ObjectId_isValid v = true →
       ∃ resp,
         getVentureCouponsById req s = Ok resp
         ∧ status resp = 200
         ∧ venture_coupons (data resp)
           ≡ₚ List.filter (has_string "createdBy" v) s
         ∧ total (data resp)
           = length (List.filter (has_string "createdBy" v) s)
         ∧ StronglySorted (newest_first "createdAt")
                          (venture_coupons (data resp))
         ∧ ∀ st, st ∈ counted_statuses →
             statusCounts (data resp) !! st
             = Some (Count (length (List.filter (has_string "status" st)
                                      (venture_coupons (data resp))))))
  ∧ (∀ id, getVentureCouponsById (with_params_id id req) s
           = getVentureCouponsById req s).
Proof.
  split; [|split; [|split]].
  - intros Hv. unfold getVentureCouponsById. by rewrite Hv.
  - intros v Hv Hid. unfold getVentureCouponsById. by rewrite Hv, Hid.
  - intros v. apply getVentureCouponsById_valid.
  - done.
Qed.

(** X23.  A coupon that [createCoupon] has just stored is in the listing
    [getVentureCouponsById] gives to the venture that created it, which
    is one longer than the listing before. *)
Theorem created_coupon_is_listed_for_its_venture now fresh req req'
    (s : list (gmap string value)) resp s' v :
  createCoupon now fresh req s = (Ok resp, s') →
  venture req = Some v →
  venture req' = Some v →
  ObjectId_isValid v = true →
  ∃ before after,
    getVentureCouponsById req' s = Ok before
    ∧ getVentureCouponsById req' s' = Ok after
    ∧ data resp ∈ venture_coupons (data after)
    ∧ total (data after) = S (total (data before)).
Proof.
  intros Hc Hv Hv' Hid.
  destruct (createCoupon_stored _ _ _ _ _ _ Hc) as (_ & _ & _ & (v0 & Hv0 & Hby)).
  rewrite Hv in Hv0. injection Hv0 as <-.
  apply createCoupon_Ok_inv in Hc as (_ & _ & _ & _ & _ & ->).
  destruct (getVentureCouponsById_valid req' s v Hv' Hid)
    as (before & Hb & _ & _ & Htb & _).
  destruct (getVentureCouponsById_valid req' (s ++ [data resp]) v Hv' Hid)
    as (after & Ha & _ & Hperm & Hta & _).
  exists before, after. split; [done|]. split; [done|].
  assert (Hown : has_string "createdBy" v (data resp) = true).
  { unfold has_string. rewrite Hby. apply String.eqb_refl. }
  split.
  - rewrite Hperm. apply list_elem_of_In, filter_In. split; [|done].
    apply in_or_app. right. by left.
  - rewrite Hta, Htb, List.filter_app, length_app. simpl. rewrite Hown.
    simpl. lia.
Qed.


End VentureListing.

(** X22 at the sample venture, after it has posted two coupons. *)
Lemma venture_listing_is_exact_witness :
  ∃ resp,
    @getVentureCouponsById hex_ids diwali_form two_coupons = Ok resp
    ∧ total (data resp)
      = length (List.filter (has_string "createdBy" sample_venture)
                            two_coupons)
    ∧ statusCounts (data resp) !! "active"
      = Some (Count (length (List.filter (has_string "status" "active")
                                         (venture_coupons (data resp))))).
Proof.
  destruct (@venture_listing_is_exact hex_ids diwali_form two_coupons)
    as (_ & _ & Hok & _).
  destruct (Hok sample_venture eq_refl eq_refl)
    as (resp & Hr & _ & _ & Ht & _ & Hc).
  exists resp. split; [exact Hr|]. split; [exact Ht|].
  apply Hc. unfold counted_statuses. in_list.
Defined.

(** X23 at the second coupon of the sample venture. *)
Lemma created_coupon_is_listed_for_its_venture_witness :
  ∃ resp before after,
    @createCoupon decimal_joi 7000 second_id diwali_form after_create
    = (Ok resp, two_coupons)
    ∧ @getVentureCouponsById hex_ids diwali_form after_create = Ok before
    ∧ @getVentureCouponsById hex_ids diwali_form two_coupons = Ok after
    ∧ data resp ∈ venture_coupons (data after)
    ∧ total (data after) = S (total (data before)).
Proof.
  destruct (@createCoupon decimal_joi 7000 second_id diwali_form after_create)
    as [[resp|e] s'] eqn:Hc.
  - assert (s' = two_coupons) as ->.
    { unfold two_coupons. by rewrite Hc. }
    destruct (@created_coupon_is_listed_for_its_venture decimal_joi hex_ids
                7000 second_id diwali_form diwali_form after_create resp
                two_coupons sample_venture Hc eq_refl eq_refl eq_refl)
      as (before & after & Hb & Ha & Hin & Ht).
    exists resp, before, after. repeat split; assumption.
  - assert (Ha : answered (@createCoupon decimal_joi 7000 second_id
                             diwali_form after_create).1 = true)
      by (by vm_compute).
    rewrite Hc in Ha. discriminate Ha.
Defined.


(** ** Validation as a normal form *)

Section ValidationFixedPoint.
Context `{JoiLib}.











End ValidationFixedPoint.


(** ** The advertisement controller *)

Lemma insert_ad_desc_perm (x : Advertisement) (l : list Advertisement) :
  insert_ad_desc x l ≡ₚ x :: l.
Proof.
  induction l as [|y l IH]; [done|]. simpl.
  destruct (key_ge _ _); [done|]. rewrite IH. apply Permutation_swap.
Qed.

Lemma sort_ads_desc_perm (l : list Advertisement) : sort_ads_desc l ≡ₚ l.
Proof.
  unfold sort_ads_desc. induction l as [|x l IH]; [done|]. simpl.
  by rewrite insert_ad_desc_perm, IH.
Qed.

Lemma insert_ad_desc_sorted (x : Advertisement) (l : list Advertisement) :
  StronglySorted newest_ad_first l →
  StronglySorted newest_ad_first (insert_ad_desc x l).
Proof.
  induction 1 as [|y l Hl IH Hy]; simpl.
  { repeat constructor. }
  destruct (key_ge (date_field "createdAt" (fields x))
                   (date_field "createdAt" (fields y))) eqn:Hge.
  - constructor; [by constructor|]. constructor; [done|].
    eapply Forall_impl; [exact Hy|]. intros z Hz.
    unfold newest_ad_first, newest_first in *. by eapply key_ge_trans.
  - constructor; [done|]. rewrite insert_ad_desc_perm. constructor; [|done].
    unfold newest_ad_first, newest_first.
    destruct (key_ge_total (date_field "createdAt" (fields x))
                           (date_field "createdAt" (fields y)));
      congruence.
Qed.

Lemma sort_ads_desc_sorted (l : list Advertisement) :
  StronglySorted newest_ad_first (sort_ads_desc l).
Proof.
  unfold sort_ads_desc. induction l as [|x l IH]; simpl; [constructor|].
  by apply insert_ad_desc_sorted.
Qed.

Lemma unwind_viewers (f : Advertisement → Advertisement)
    (ads : list Advertisement) :
  (∀ ad, viewers (f ad) = viewers ad) → unwind (f <$> ads) = unwind ads.
Proof.
  intros Hf. unfold unwind. induction ads as [|ad ads IH]; [done|].
  csimpl. by rewrite Hf, IH.
Qed.

Lemma analytics_of_views (ads ads' : list Advertisement) :
  unwind ads' = unwind ads → analytics ads' = analytics ads.
Proof. unfold analytics. by intros ->. Qed.

Section AdvertisementFacts.
Context `{Mongoose} `{AdvertisementModel}.

Lemma expire_ad_cases now (ad : Advertisement) :
  ∃ ad',
    expire_ads now [ad] = [ad']
    ∧ viewers ad' = viewers ad
    ∧ (∀ k, k ≠ "status" → k ≠ "isExpired" →
            fields ad' !! k = fields ad !! k)
    ∧ (if ad_overdue now ad
       then fields ad' !! "status" = Some (VStr "expired")
       else ad' = ad)
    ∧ ad_overdue now ad' = false.
Proof.
  eexists. split; [reflexivity|]. fold (ad_overdue now ad).
  destruct (ad_overdue now ad) eqn:Ho.
  - split; [done|]. simpl. split; [|split].
    + intros k Hs He. destruct declares_isExpired;
        by rewrite ?lookup_insert_ne by done.
    + destruct declares_isExpired;
        by rewrite ?lookup_insert_ne, lookup_insert_eq by done.
    + unfold ad_overdue, ad_has_string, has_string; simpl.
      destruct declares_isExpired;
        rewrite ?lookup_insert_ne, lookup_insert_eq by done;
        apply andb_false_r.
  - by repeat split.
Qed.

Lemma expire_ads_lookup now (ads : list Advertisement) i ad :
  ads !! i = Some ad →
  ∃ ad',
    expire_ads now ads !! i = Some ad'
    ∧ expire_ads now [ad] = [ad'].
Proof.
  intros Hi. unfold expire_ads. rewrite list_lookup_fmap, Hi. by eexists.
Qed.

Lemma expire_ads_none_overdue now (ads : list Advertisement) :
  Forall (fun ad => ad_overdue now ad = false) (expire_ads now ads).
Proof.
  apply Forall_forall. intros ad' Hin.
  apply list_elem_of_lookup in Hin as [i Hi].
  unfold expire_ads in Hi. rewrite list_lookup_fmap in Hi.
  destruct (ads !! i) as [ad|] eqn:Had; [|done]. injection Hi as <-.
  destruct (expire_ad_cases now ad) as (ad' & [= <-] & _ & _ & _ & Hno).
  exact Hno.
Qed.

Lemma expire_ads_fixed now (ads : list Advertisement) :
  Forall (fun ad => ad_overdue now ad = false) ads →
  expire_ads now ads = ads.
Proof.
  induction 1 as [|ad ads Hno _ IH]; [done|].
  unfold expire_ads in *. csimpl. rewrite IH. f_equal.
  fold (ad_overdue now ad). by rewrite Hno.
Qed.

(** X26.  The sweep of [displayAdv] keeps the advertisements in their
    places.  One that is active with a validity not after the time of the
    request becomes expired; any other stays as it is.  No viewer log and
    no field but [status] and [isExpired] changes.  Afterwards no
    advertisement is active with a validity that has passed, so a second
    request at the same time changes nothing more. *)
Theorem displayAdv_expires_overdue_ads now (ads : list Advertisement) :
  length (displayAdv now ads).2 = length ads
  ∧ (∀ i ad, ads !! i = Some ad →
       ∃ ad',
         (displayAdv now ads).2 !! i = Some ad'
         ∧ viewers ad' = viewers ad
         ∧ (∀ k, k ≠ "status" → k ≠ "isExpired" →
                 fields ad' !! k = fields ad !! k)
         ∧ (if ad_overdue now ad
            then fields ad' !! "status" = Some (VStr "expired")
            else ad' = ad))
  ∧ Forall (fun ad => ad_overdue now ad = false) (displayAdv now ads).2
  ∧ displayAdv now (displayAdv now ads).2 = displayAdv now ads.
Proof.
  simpl. split; [unfold expire_ads; by rewrite length_fmap|].
  split; [|split].
  - intros i ad Hi.
    destruct (expire_ads_lookup now ads i ad Hi) as (ad' & Hi' & Hone).
    destruct (expire_ad_cases now ad) as (ad'' & Hone' & Hv & Hf & Hs & _).
    rewrite Hone in Hone'. injection Hone' as <-. by exists ad'.
  - apply expire_ads_none_overdue.
  - unfold displayAdv.
    by rewrite (expire_ads_fixed now _ (expire_ads_none_overdue now ads)).
Qed.

(** X27.  [displayAdv] answers with every advertisement of the
    collection as the sweep has left it, each once, newest first, and
    with their number.  The listing of the active advertisements,
    [displayAdvertisement], taken after it holds no advertisement whose
    validity had passed at that time. *)
Theorem displayAdv_lists_every_ad now (ads : list Advertisement) :
  adv_data (displayAdv now ads).1 ≡ₚ (displayAdv now ads).2
  ∧ adv_total (displayAdv now ads).1 = length ads
  ∧ adv_total (displayAdv now ads).1 = length (adv_data (displayAdv now ads).1)
  ∧ StronglySorted newest_ad_first (adv_data (displayAdv now ads).1)
  ∧ Forall (fun ad => date_lte "validity" now (fields ad) = false)
           (data (displayAdvertisement (displayAdv now ads).2)).
Proof.
  simpl. split; [apply sort_ads_desc_perm|].
  split; [by rewrite sort_ads_desc_perm; unfold expire_ads;
            rewrite length_fmap|].
  split; [done|]. split; [apply sort_ads_desc_sorted|].
  apply Forall_forall. intros ad Hin.
  apply list_elem_of_In, filter_In in Hin as [Hin Hact].
  apply list_elem_of_In in Hin.
  pose proof (expire_ads_none_overdue now ads) as Hno.
  rewrite Forall_forall in Hno. specialize (Hno ad Hin).
  unfold ad_overdue in Hno. rewrite Hact, andb_true_r in Hno. exact Hno.
Qed.

(** X28.  [createItem] answers 400 and stores nothing when the title,
    the description or the validity of the body is missing or falsy (an
    empty text, zero, null, false).  When it answers, the status is 201
    and the collection is the one before with the new advertisement at
    its end; when it fails, the collection is as before.  Nothing of the
    request but those three fields, the path of the file and the venture
    plays a part: the body cannot set any other field. *)
Theorem createItem_reads_three_fields now fresh req
    (ads : list Advertisement) :
  (truthy (body req !! "title") && truthy (body req !! "description")
   && truthy (body req !! "validity") = false →
   createItem now fresh req ads = (Err (Api ad_fields_missing), ads))
  ∧ (∀ resp ads', createItem now fresh req ads = (Ok resp, ads') →
       status resp = 201
       ∧ ads' = (ads ++ [data resp])%list
       ∧ truthy (body req !! "title") = true
       ∧ truthy (body req !! "description") = true
       ∧ truthy (body req !! "validity") = true)
  ∧ (∀ e ads', createItem now fresh req ads = (Err e, ads') → ads' = ads)
  ∧ (∀ req', same_ad_form req req' →
       createItem now fresh req' ads = createItem now fresh req ads).
Proof.
  split; [|split; [|split]].
  - intros Hf. unfold createItem.
    destruct (truthy (body req !! "title")),
             (truthy (body req !! "description")),
             (truthy (body req !! "validity")); done.
  - intros resp ads'. unfold createItem.
    destruct (truthy (body req !! "title")),
             (truthy (body req !! "description")),
             (truthy (body req !! "validity")); simpl; try done.
    destruct (Advertisement_create _ _ _) as [newAd|e]; [|done].
    by intros [= <- <-].
  - intros e ads'. unfold createItem.
    destruct (_ || _); [by intros [= _ <-]|].
    destruct (Advertisement_create _ _ _) as [newAd|e0]; [done|].
    by intros [= _ <-].
  - intros req' (Ht & Hd & Hv & Hf & Hven). unfold createItem.
    by rewrite Ht, Hd, Hv, Hf, Hven.
Qed.





End AdvertisementFacts.

(** X26 at the sample advertisements, at time 5000: the first has
    lapsed. *)
Lemma displayAdv_expires_overdue_ads_witness :
  ∃ ad',
    (@displayAdv plain_ads 5000 sample_ads).2 !! 0%nat = Some ad'
    ∧ viewers ad' = viewers lapsed_ad
    ∧ fields ad' !! "status" = Some (VStr "expired").
Proof.
  destruct (@displayAdv_expires_overdue_ads plain_ads 5000 sample_ads)
    as (_ & Hat & _).
  destruct (Hat 0%nat lapsed_ad eq_refl) as (ad' & Hi & Hv & _ & Hs).
  exists ad'. split; [exact Hi|]. split; [exact Hv|]. exact Hs.
Defined.

(** X28 at the sample form. *)
Lemma createItem_reads_three_fields_witness :
  ∃ resp,
    @createItem plain_ads 5000 ad_id ad_form sample_ads
    = (Ok resp, (sample_ads ++ [data resp])%list)
    ∧ status resp = 201.
Proof.
  destruct (@createItem plain_ads 5000 ad_id ad_form sample_ads)
    as [[resp|e] ads'] eqn:Hc.
  - destruct (@createItem_reads_three_fields plain_ads 5000 ad_id ad_form
                sample_ads) as (_ & Hok & _).
    destruct (Hok resp ads' Hc) as (Hs & -> & _).
    by exists resp.
  - assert (Ha : answered (@createItem plain_ads 5000 ad_id ad_form
                             sample_ads).1 = true) by (by vm_compute).
    rewrite Hc in Ha. discriminate Ha.
Defined.


(** ** Analytics, further *)

Lemma views_reported_add_view (d u : string) (g : list bucket) :
  views_reported (project <$> add_view d u g)
  = S (views_reported (project <$> g)).
Proof.
  induction g as [|b g IH]; [done|]. simpl.
  destruct (String.eqb (day b) d); csimpl; [done|].
  rewrite IH. lia.
Qed.

Lemma views_reported_group (keyed : list (string * string)) :
  views_reported (project <$> group_views keyed) = length keyed.
Proof.
  unfold group_views. induction keyed as [|[d u] keyed IH] using rev_ind;
    [done|].
  rewrite foldl_snoc, views_reported_add_view, IH, length_app. simpl. lia.
Qed.

Lemma views_reported_perm (l l' : list DayStat) :
  l ≡ₚ l' → views_reported l = views_reported l'.
Proof.
  induction 1 as [|x l l' _ IH|x y l|l l' l'' _ IH1 _ IH2]; simpl;
    [done|by rewrite IH|lia|congruence].
Qed.

Lemma bucket_users_bound (keyed : list (string * string)) (b : bucket) :
  b ∈ group_views keyed →
  (1 ≤ length (uniqueUsers b) ≤ views b)%nat.
Proof.
  intros Hb.
  destruct (group_views_grouped keyed) as (_ & _ & Hall).
  destruct (Hall b Hb) as (Hv & Hpos & Hnd & Hiff). split.
  - destruct (users_of (day b) keyed) as [|u us] eqn:Hu;
      [rewrite Hv in Hpos; simpl in Hpos; lia|].
    assert (u ∈ uniqueUsers b) as Hin.
    { apply Hiff. apply elem_of_cons; by left. }
    destruct (uniqueUsers b); [by apply elem_of_nil in Hin|simpl; lia].
  - rewrite Hv. apply submseteq_length, NoDup_submseteq; [done|].
    intros u. apply Hiff.
Qed.

Lemma string_ltb_irrefl (a : string) : String.ltb a a = false.
Proof.
  unfold String.ltb. pose proof (String.compare_antisym a a) as Hc.
  by destruct (String.compare a a).
Qed.

Lemma sorted_rows_unique (l1 l2 : list DayStat) :
  StronglySorted later_first l1 →
  StronglySorted later_first l2 →
  (∀ row, row ∈ l1 ↔ row ∈ l2) →
  l1 = l2.
Proof.
  assert (Hirr : ∀ a, ¬ later_first a a).
  { intros a. unfold later_first. by rewrite string_ltb_irrefl. }
  assert (Hasym : ∀ a b, later_first a b → later_first b a → False).
  { intros a b Hab Hba. apply (Hirr a). unfold later_first in *.
    by eapply string_ltb_trans. }
  intros H1. revert l2. induction H1 as [|x1 l1 Hs1 IH Hx1]; intros l2 H2 Hiff.
  { destruct l2 as [|x2 l2]; [done|].
    exfalso. eapply not_elem_of_nil, Hiff. by left. }
  destruct H2 as [|x2 l2 Hs2 Hx2].
  { exfalso. eapply not_elem_of_nil, Hiff. by left. }
  rewrite Forall_forall in Hx1, Hx2.
  assert (x1 = x2) as <-.
  { assert (x1 ∈ x2 :: l2) as [->|Hin1]%elem_of_cons
      by (apply Hiff; by left); [done|].
    assert (x2 ∈ x1 :: l1) as [->|Hin2]%elem_of_cons
      by (apply Hiff; by left); [done|].
    exfalso. by apply (Hasym x1 x2); [apply Hx1|apply Hx2]. }
  f_equal. apply IH; [done|]. intros row. split; intros Hin.
  - assert (row ∈ x1 :: l2) as [->|?]%elem_of_cons
      by (apply Hiff; by right); [|done].
    exfalso. by apply (Hirr x1), Hx1.
  - assert (row ∈ x1 :: l1) as [->|?]%elem_of_cons
      by (apply Hiff; by right); [|done].
    exfalso. by apply (Hirr x1), Hx2.
Qed.

(** The lines of the answer, by what they say of the views. *)
Lemma analytics_rows (vs : list Viewer) (keyed : list (string * string))
    (row : DayStat) :
  mapM view_key vs = Some keyed →
  row ∈ project <$> group_views keyed
  ↔ (∃ v, v ∈ vs ∧ dateToString (viewedAt v) = Some (date row))
    ∧ totalViews row = length (on_day (date row) vs)
    ∧ uniqueUsersCount row = distinct_users (on_day (date row) vs).
Proof.
  intros Hm.
  destruct (group_views_grouped keyed) as (Hnd & Hdays & Hb).
  assert (Hfacts : ∀ b, b ∈ group_views keyed →
            (0 < views b)%nat
            ∧ views b = length (on_day (day b) vs)
            ∧ length (uniqueUsers b) = distinct_users (on_day (day b) vs)).
  { intros b Hg. destruct (Hb b Hg) as (Hv & Hpos & Hu & Hiff).
    pose proof (keyed_users _ keyed (day b) Hm) as Hk.
    rewrite Hk, length_fmap in Hv. split; [done|]. split; [done|].
    unfold distinct_users.
    rewrite <- (size_list_to_set (C := gset string) _ Hu). f_equal.
    apply set_eq. intros u. rewrite !elem_of_list_to_set, <- Hk.
    apply Hiff. }
  split.
  - intros (b & -> & Hg)%list_elem_of_fmap.
    destruct (Hfacts b Hg) as (Hpos & Hv & Hu). simpl.
    split; [|done].
    destruct (on_day (day b) vs) as [|v rest] eqn:Hon;
      [rewrite Hv in Hpos; simpl in Hpos; lia|].
    assert (v ∈ on_day (day b) vs) as Hin by (rewrite Hon; by left).
    unfold on_day in Hin. apply list_elem_of_filter in Hin as [Hd Hin].
    by exists v.
  - intros ((v & Hv & Hd) & Ht & Hu).
    destruct (keyed_days _ keyed v Hm Hv) as (p & Hp & Hd').
    specialize (Hdays p Hp).
    apply list_elem_of_fmap in Hdays as (b & Hday & Hg).
    assert (day b = date row) as Hsame by congruence.
    apply list_elem_of_fmap. exists b. split; [|done].
    destruct (Hfacts b Hg) as (_ & Hv' & Hu').
    destruct row as [d t u]. unfold project. simpl in *.
    rewrite Hsame in Hv', Hu'. congruence.
Qed.

Lemma on_day_perm (d : string) (vs vs' : list Viewer) :
  vs ≡ₚ vs' → on_day d vs ≡ₚ on_day d vs'.
Proof. unfold on_day. by intros ->. Qed.

Lemma distinct_users_perm (vs vs' : list Viewer) :
  vs ≡ₚ vs' → distinct_users vs = distinct_users vs'.
Proof.
  intros Hp. unfold distinct_users. f_equal. apply set_eq. intros u.
  rewrite !elem_of_list_to_set. by rewrite Hp.
Qed.

Lemma view_keys_perm (vs vs' : list Viewer) :
  vs ≡ₚ vs' →
  match mapM view_key vs, mapM view_key vs' with
  | Some keyed, Some keyed' =>
      sort_by_date_desc (project <$> group_views keyed)
      = sort_by_date_desc (project <$> group_views keyed')
  | None, None => True
  | _, _ => False
  end.
Proof.
  intros Hp.
  destruct (mapM view_key vs) as [keyed|] eqn:Hm,
           (mapM view_key vs') as [keyed'|] eqn:Hm'.
  - apply sorted_rows_unique.
    + apply sort_by_date_desc_sorted. rewrite <- list_fmap_compose.
      apply (group_views_grouped keyed).
    + apply sort_by_date_desc_sorted. rewrite <- list_fmap_compose.
      apply (group_views_grouped keyed').
    + intros row. rewrite !sort_by_date_desc_perm.
      rewrite (analytics_rows vs keyed row Hm),
              (analytics_rows vs' keyed' row Hm').
      rewrite (Permutation_length (on_day_perm (date row) _ _ Hp)).
      rewrite (distinct_users_perm _ _ (on_day_perm (date row) _ _ Hp)).
      by setoid_rewrite Hp.
  - apply mapM_None_1, Exists_exists in Hm' as (v & Hv & Hnone).
    rewrite <- Hp in Hv.
    apply mapM_Some_1 in Hm.
    apply list_elem_of_lookup in Hv as [i Hi].
    destruct (Forall2_lookup_l _ _ _ _ _ Hm Hi) as (p & _ & Hsome).
    congruence.
  - apply mapM_None_1, Exists_exists in Hm as (v & Hv & Hnone).
    rewrite Hp in Hv.
    apply mapM_Some_1 in Hm'.
    apply list_elem_of_lookup in Hv as [i Hi].
    destruct (Forall2_lookup_l _ _ _ _ _ Hm' Hi) as (p & _ & Hsome).
    congruence.
  - done.
Qed.

(** X30.  [analytics] reads the viewer logs and nothing else.  It fails
    as a whole when one view has a timestamp that cannot be formatted.
    When it answers, its lines add up to the number of views of the
    collection, each line counts at least one user and no more users
    than views, and a collection without views gives no line.  What the
    sweep of [displayAdv] does to the collection does not change the
    answer, nor does the order in which the advertisements are stored. *)
Theorem analytics_accounts_for_every_view `{AdvertisementModel}
    (ads : list Advertisement) :
  ((∃ v, v ∈ unwind ads ∧ dateToString (viewedAt v) = None) →
   ∃ e, analytics ads = Err e)
  ∧ (∀ resp, analytics ads = Ok resp →
       views_reported (data resp) = length (unwind ads)
       ∧ Forall (fun row => (1 ≤ uniqueUsersCount row ≤ totalViews row)%nat)
                (data resp)
       ∧ (unwind ads = [] → data resp = []))
  ∧ (∀ now, analytics (displayAdv now ads).2 = analytics ads)
  ∧ (∀ ads', ads ≡ₚ ads' → analytics ads' = analytics ads).
Proof.
  split; [|split; [|split]].
  - intros (v & Hv & Hnone). unfold analytics.
    destruct (mapM view_key (unwind ads)) as [keyed|] eqn:Hm; [|by eexists].
    apply mapM_Some_1 in Hm.
    apply list_elem_of_lookup in Hv as [i Hi].
    destruct (Forall2_lookup_l _ _ _ _ _ Hm Hi) as (p & _ & Hsome).
    unfold view_key in Hsome. by rewrite Hnone in Hsome.
  - intros resp. unfold analytics.
    destruct (mapM view_key (unwind ads)) as [keyed|] eqn:Hm; [|done].
    intros [= <-]. simpl. split; [|split].
    + rewrite (views_reported_perm _ _ (sort_by_date_desc_perm _)).
      rewrite views_reported_group. symmetry.
      apply mapM_Some_1 in Hm. by eapply Forall2_length.
    + apply Forall_forall. intros row Hrow.
      rewrite sort_by_date_desc_perm in Hrow.
      apply list_elem_of_fmap in Hrow as (b & -> & Hg). simpl.
      by apply (bucket_users_bound keyed).
    + intros Hnil. rewrite Hnil in Hm. by injection Hm as <-.
  - intros now. apply analytics_of_views. simpl. unfold expire_ads.
    apply unwind_viewers. intros ad. by destruct (_ && _).
  - intros ads' Hp. unfold analytics.
    assert (unwind ads' ≡ₚ unwind ads) as Hu.
    { unfold unwind. by rewrite Hp. }
    pose proof (view_keys_perm _ _ Hu) as Hk.
    destruct (mapM view_key (unwind ads')), (mapM view_key (unwind ads));
      try done.
    by rewrite Hk.
Qed.

(** X30 at the sample advertisements. *)
Lemma analytics_accounts_for_every_view_witness :
  ∃ resp,
    analytics sample_ads = Ok resp
    ∧ views_reported (data resp) = 3%nat
    ∧ analytics [running_ad; lapsed_ad] = Ok resp.
Proof.
  destruct (analytics sample_ads) as [resp|e] eqn:Ha.
  - exists resp. split; [reflexivity|].
    destruct (@analytics_accounts_for_every_view plain_ads sample_ads)
      as (_ & Hok & _ & Hperm).
    destruct (Hok resp Ha) as (Hsum & _).
    split; [exact Hsum|].
    rewrite <- Ha. apply Hperm. apply Permutation_swap.
  - assert (Hans : answered (analytics sample_ads) = true) by (by vm_compute).
    rewrite Ha in Hans. discriminate Hans.
Defined.
